(** * The micrograd engine (value.js): a shallow embedding

    The JavaScript class [Value] builds a computation graph of heap objects
    that share operands and carry a closure [_backward].  The embedding keeps
    an explicit object store: a [heap] is the list of all [Value] objects in
    allocation order and a reference is an index into it.  JavaScript numbers
    are IEEE-754 binary64, here Rocq's primitive [float].  Closures are kept
    as their code label together with the variables they capture. *)

From Stdlib Require Import Floats ZArith String.
From Stdlib Require Uint63.
From stdpp Require Import base list.

(** ** Numbers out of the engine's hands

    [Math.pow], [Math.exp] and the number-to-string conversion used by a
    template literal are built-ins of the host.  Their results are
    approximations chosen by the implementation, so they are parameters. *)

Record Builtins := {
  Math_pow : float -> float -> float;
  Math_exp : float -> float;
  Number_toString : float -> string
}.

(** ** Objects and the store *)

Abbreviation ref := nat.

(** The body of each arrow function assigned to [out._backward], with the
    variables of the enclosing method call it closes over. *)
Inductive closure :=
| Noop                                              (* () => {} *)
| AddBack (this other out : ref)
| MulBack (this other out : ref)
| PowBack (this : ref) (other : float) (out : ref)
| ReluBack (this out : ref)
| TanhBack (this : ref) (t : float) (out : ref)
| ExpBack (this out : ref).

(** The fields of a [Value].  The field [id], a random string that only
    the visualiser reads, is left out. *)
Record Value := {
  data : float;
  grad : float;
  _backward : closure;
  _prev : list ref;          (* a Set: insertion order, no element twice *)
  _op : string;
  label : string
}.

Abbreviation heap := (list Value).

Global Instance Value_inhabited : Inhabited Value :=
  populate {| data := 0%float; grad := 0%float; _backward := Noop;
              _prev := []; _op := ""; label := "" |}.

(** JavaScript's [Set] restricted to what the engine uses: [has], [add],
    construction from an array, and iteration in insertion order. *)
Module JSSet.
Definition has (s : list ref) (x : ref) : bool := bool_decide (x ∈ s).
Definition add (s : list ref) (x : ref) : list ref :=
  if has s x then s else s ++ [x].
Definition from (l : list ref) : list ref := fold_left add l [].
End JSSet.

(** ** Exceptions and the state monad of a method call *)

Inductive exn :=
| Error (msg : string)
| RangeError.                (* the call stack is exhausted *)

Inductive outcome (A : Type) :=
| Return (a : A) (h : heap)
| Throw (e : exn) (h : heap).
Arguments Return {A} a h.
Arguments Throw {A} e h.

Definition M (A : Type) := heap -> outcome A.

Definition ret {A} (a : A) : M A := fun h => Return a h.
Definition bind {A B} (m : M A) (k : A -> M B) : M B :=
  fun h => match m h with
           | Return a h' => k a h'
           | Throw e h' => Throw e h'
           end.
Definition throw {A} (e : exn) : M A := fun h => Throw e h.
Definition read {A} (f : heap -> A) : M A := fun h => Return (f h) h.
Definition write (f : heap -> heap) : M unit := fun h => Return tt (f h).

Notation "x <- m ;; k" := (bind m (fun x => k))
  (at level 100, m at next level, right associativity).
Notation "m ;;; k" := (bind m (fun _ => k))
  (at level 100, right associativity).

(** Field updates of one object. *)
Definition with_grad (g : float) (v : Value) : Value :=
  {| data := data v; grad := g; _backward := _backward v;
     _prev := _prev v; _op := _op v; label := label v |}.
Definition with_backward (c : closure) (v : Value) : Value :=
  {| data := data v; grad := grad v; _backward := c;
     _prev := _prev v; _op := _op v; label := label v |}.
Definition with_label (l : string) (v : Value) : Value :=
  {| data := data v; grad := grad v; _backward := _backward v;
     _prev := _prev v; _op := _op v; label := l |}.

Definition set_grad (r : ref) (g : float) (h : heap) : heap :=
  alter (with_grad g) r h.
Definition set_backward (r : ref) (c : closure) (h : heap) : heap :=
  alter (with_backward c) r h.
Definition set_label (r : ref) (l : string) (h : heap) : heap :=
  alter (with_label l) r h.

(** [r.grad += x] *)
Definition add_grad (r : ref) (x : float) (h : heap) : heap :=
  set_grad r (grad (h !!! r) + x)%float h.

(** ** The class [Value] *)

(** [new Value(data, children, op, label)] *)
Definition new_Value (d : float) (children : list ref) (op lbl : string) : M ref :=
  fun h => Return (length h)
    (h ++ [ {| data := d; grad := 0%float; _backward := Noop;
               _prev := JSSet.from children; _op := op; label := lbl |} ]).

(** The second operand of a binary method: a [Value] or a raw number. *)
Inductive operand :=
| Node (r : ref)
| Num (x : float).

(** [other instanceof Value ? other : new Value(other)] *)
Definition promote (other : operand) : M ref :=
  match other with
  | Node r => ret r
  | Num x => new_Value x [] "" ""
  end.

(** What [pow] may be handed: [typeof] tells a number from the rest. *)
Inductive jsval :=
| JNumber (x : float)
| JObject (r : ref)
| JString (s : string)
| JUndefined.

Section Engine.
Variable js : Builtins.

Definition add (this : ref) (other : operand) : M ref :=
  other <- promote other ;;
  d <- read (fun h => (data (h !!! this) + data (h !!! other))%float) ;;
  out <- new_Value d [this; other] "+" "" ;;
  write (set_backward out (AddBack this other out)) ;;;
  ret out.

Definition mul (this : ref) (other : operand) : M ref :=
  other <- promote other ;;
  d <- read (fun h => (data (h !!! this) * data (h !!! other))%float) ;;
  out <- new_Value d [this; other] "*" "" ;;
  write (set_backward out (MulBack this other out)) ;;;
  ret out.

Definition pow (this : ref) (other : jsval) : M ref :=
  match other with
  | JNumber p =>
      d <- read (fun h => Math_pow js (data (h !!! this)) p) ;;
      out <- new_Value d [this] ("**" ++ Number_toString js p) "" ;;
      write (set_backward out (PowBack this p out)) ;;;
      ret out
  | _ => throw (Error "only supporting number powers for now")
  end.

Definition relu (this : ref) : M ref :=
  d <- read (fun h => if (data (h !!! this) <? 0)%float then 0%float
                      else data (h !!! this)) ;;
  out <- new_Value d [this] "ReLU" "" ;;
  write (set_backward out (ReluBack this out)) ;;;
  ret out.

Definition tanh (this : ref) : M ref :=
  x <- read (fun h => data (h !!! this)) ;;
  let t := ((Math_exp js (2 * x) - 1) / (Math_exp js (2 * x) + 1))%float in
  out <- new_Value t [this] "tanh" "" ;;
  write (set_backward out (TanhBack this t out)) ;;;
  ret out.

Definition exp (this : ref) : M ref :=
  x <- read (fun h => data (h !!! this)) ;;
  out <- new_Value (Math_exp js x) [this] "exp" "" ;;
  write (set_backward out (ExpBack this out)) ;;;
  ret out.

Definition div (this : ref) (other : operand) : M ref :=
  p <- match other with
       | Node r => pow r (JNumber (-1)%float)
       | Num x => v <- new_Value x [] "" "" ;; pow v (JNumber (-1)%float)
       end ;;
  mul this (Node p).

Definition neg (this : ref) : M ref := mul this (Num (-1)%float).

Definition sub (this : ref) (other : operand) : M ref :=
  n <- match other with
       | Node r => neg r
       | Num x => v <- new_Value x [] "" "" ;; neg v
       end ;;
  add this (Node n).

(** Running the arrow function stored in [_backward]. *)
Definition run_closure (c : closure) (h : heap) : heap :=
  match c with
  | Noop => h
  | AddBack this other out =>
      let h := add_grad this (1 * grad (h !!! out))%float h in
      add_grad other (1 * grad (h !!! out))%float h
  | MulBack this other out =>
      let h := add_grad this (data (h !!! other) * grad (h !!! out))%float h in
      add_grad other (data (h !!! this) * grad (h !!! out))%float h
  | PowBack this other out =>
      add_grad this
        (other * Math_pow js (data (h !!! this)) (other - 1)
         * grad (h !!! out))%float h
  | ReluBack this out =>
      add_grad this
        ((if (0 <? data (h !!! out))%float then 1 else 0)
         * grad (h !!! out))%float h
  | TanhBack this t out =>
      add_grad this ((1 - t * t) * grad (h !!! out))%float h
  | ExpBack this out =>
      add_grad this (data (h !!! out) * grad (h !!! out))%float h
  end.

(** [v._backward()] *)
Definition call_backward (v : ref) (h : heap) : heap :=
  run_closure (_backward (h !!! v)) h.

(** [for (const child of s) body(child)] over mutable local state; the
    body may exhaust the call stack. *)
Fixpoint for_of {S : Type} (body : ref -> S -> option S) (s : list ref)
    (st : S) : option S :=
  match s with
  | [] => Some st
  | child :: rest =>
      match body child st with
      | Some st' => for_of body rest st'
      | None => None
      end
  end.

(** The local function [buildTopo] of [backward]; the state is the pair
    of its captured variables [visited] and [topo].  [stack] bounds the
    depth of nested calls. *)
Fixpoint buildTopo (stack : nat) (h : heap) (v : ref)
    (st : list ref * list ref) : option (list ref * list ref) :=
  match stack with
  | 0 => None
  | S stack' =>
      let '(visited, topo) := st in
      if JSSet.has visited v then Some st
      else
        match for_of (buildTopo stack' h) (_prev (h !!! v))
                     (JSSet.add visited v, topo) with
        | Some (visited', topo') => Some (visited', topo' ++ [v])
        | None => None
        end
  end.

(** [for (let i = topo.length - 1; i >= 0; i--) topo[i]._backward()];
    [n] is [i + 1]. *)
Fixpoint walk (topo : list ref) (n : nat) (h : heap) : heap :=
  match n with
  | 0 => h
  | S i => walk topo i (call_backward (topo !!! i) h)
  end.

Definition backward (stack : nat) (this : ref) : M unit :=
  fun h =>
    match buildTopo stack h this ([], []) with
    | None => Throw RangeError h
    | Some (_, topo) =>
        Return tt (walk topo (length topo) (set_grad this 1%float h))
    end.

(** The local function [build] of [getNodes]; the state is the pair of
    its captured variables [nodes] and [edges].  Every edge is a fresh
    array, so the Set [edges] never merges two of them. *)
Fixpoint build (stack : nat) (h : heap) (v : ref)
    (st : list ref * list (ref * ref)) : option (list ref * list (ref * ref)) :=
  match stack with
  | 0 => None
  | S stack' =>
      let '(nodes, edges) := st in
      if JSSet.has nodes v then Some st
      else
        for_of (fun child '(nodes, edges) =>
                  build stack' h child (nodes, edges ++ [(child, v)]))
               (_prev (h !!! v)) (JSSet.add nodes v, edges)
  end.

Definition getNodes (stack : nat) (this : ref)
    : M (list ref * list (ref * ref)) :=
  fun h =>
    match build stack h this ([], []) with
    | None => Throw RangeError h
    | Some (nodes, edges) => Return (nodes, edges) h
    end.

(** [nodes.forEach(node => { node.grad = 0; })] *)
Definition zeroGrad (stack : nat) (this : ref) : M unit :=
  g <- getNodes stack this ;;
  let nodes := fst g in
  write (fun h => fold_left (fun h node => set_grad node 0%float h) nodes h).

Definition createValue (d : float) (lbl : string) : M ref :=
  new_Value d [] "" lbl.

(** [Examples.complex]; the result names the seven objects
    [a, b, c, e, d, f, L]. *)
Definition Examples_complex : M (ref * ref * ref * ref * ref * ref * ref) :=
  a <- createValue 2%float "a" ;;
  b <- createValue (-3)%float "b" ;;
  c <- createValue 10%float "c" ;;
  f <- createValue (-2)%float "f" ;;
  e <- mul a (Node b) ;;
  write (set_label e "e") ;;;
  d <- add e (Node c) ;;
  write (set_label d "d") ;;;
  L <- mul d (Node f) ;;
  write (set_label L "L") ;;;
  ret (a, b, c, e, d, f, L).

End Engine.

(** ** The graph of a store

    An object's operands are the elements of its [_prev]; a store built by
    the constructor only lets an object point at objects allocated before
    it, which is what makes the graph acyclic. *)

Definition prev (h : heap) (v : ref) : list ref := _prev (h !!! v).

(** [reachable h r n]: [n] is [r] or one of its transitive operands. *)
Inductive reachable (h : heap) : ref -> ref -> Prop :=
| reach_refl r : reachable h r r
| reach_step r c n : c ∈ prev h r -> reachable h c n -> reachable h r n.

(** The objects whose [grad] a closure assigns, in the order of the
    assignments, and the object [out] whose [grad] it reads. *)
Definition targets (c : closure) : list ref :=
  match c with
  | Noop => []
  | AddBack this other _ | MulBack this other _ => [this; other]
  | PowBack this _ _ | ReluBack this _ | TanhBack this _ _
  | ExpBack this _ => [this]
  end.

Definition owner (c : closure) : option ref :=
  match c with
  | Noop => None
  | AddBack _ _ out | MulBack _ _ out | PowBack _ _ out | ReluBack _ out
  | TanhBack _ _ out | ExpBack _ out => Some out
  end.

(** What every method establishes for the object stored at index [i]:
    operands are older objects, [_prev] holds no element twice, and the
    closure is the one of this object over (some of) its operands. *)
Definition node_ok (i : ref) (v : Value) : Prop :=
  Forall (fun c => c < i) (_prev v) /\ NoDup (_prev v) /\
  Forall (fun t => t ∈ _prev v) (targets (_backward v)) /\
  default i (owner (_backward v)) = i.

Fixpoint wf_from (i : nat) (h : heap) : Prop :=
  match h with
  | [] => True
  | v :: h' => node_ok i v /\ wf_from (S i) h'
  end.

Definition wf (h : heap) : Prop := wf_from 0 h.

Global Instance node_ok_dec i v : Decision (node_ok i v).
Proof. unfold node_ok. apply _. Defined.

Global Instance wf_from_dec i h : Decision (wf_from i h).
Proof. revert i. induction h as [|v h IH]; intros i; simpl; apply _. Defined.

Global Instance wf_dec h : Decision (wf h).
Proof. unfold wf. apply _. Defined.

(** All gradients of a store are [0], as after construction. *)
Definition zero_grads (h : heap) : Prop :=
  Forall (fun v => grad v = 0%float) h.

(** Everything of an object but its gradient. *)
Definition shape (v : Value) : float * closure * list ref * string * string :=
  (data v, _backward v, _prev v, _op v, label v).

(** [topo_sorted h l]: every operand of an element of [l] stands strictly
    before it in [l]. *)
Definition topo_sorted (h : heap) (l : list ref) : Prop :=
  forall i n, l !! i = Some n ->
  forall c, c ∈ prev h n -> exists j, j < i /\ l !! j = Some c.

(** The sequence of calls [topo[i]._backward()] of the loop of [backward],
    over a list of objects taken from first to last. *)
Definition run_list (js : Builtins) (l : list ref) (h : heap) : heap :=
  fold_left (fun h v => call_backward js v h) l h.

(** The amounts the closure [c], run in store [h], adds to the gradient
    of each target, in the order of its assignments. *)
Definition contributions (js : Builtins) (c : closure) (h : heap)
    : list (ref * float) :=
  match c with
  | Noop => []
  | AddBack this other out =>
      [(this, (1 * grad (h !!! out))%float);
       (other, (1 * grad (h !!! out))%float)]
  | MulBack this other out =>
      [(this, (data (h !!! other) * grad (h !!! out))%float);
       (other, (data (h !!! this) * grad (h !!! out))%float)]
  | PowBack this other out =>
      [(this, (other * Math_pow js (data (h !!! this)) (other - 1)
               * grad (h !!! out))%float)]
  | ReluBack this out =>
      [(this, ((if (0 <? data (h !!! out))%float then 1 else 0)
               * grad (h !!! out))%float)]
  | TanhBack this t out =>
      [(this, ((1 - t * t) * grad (h !!! out))%float)]
  | ExpBack this out =>
      [(this, (data (h !!! out) * grad (h !!! out))%float)]
  end.

(** The amounts among them that go to the object [r]. *)
Definition incr (js : Builtins) (c : closure) (h : heap) (r : ref)
    : list float :=
  (filter (fun p => p.1 = r) (contributions js c h)).*2.

(** All amounts the closures of the objects [l], read in store [h], add to
    the gradient of [r], in the order of [l]. *)
Definition received (js : Builtins) (h : heap) (l : list ref) (r : ref)
    : list float :=
  concat (map (fun c => incr js (_backward (h !!! c)) h r) l).

Definition fsum (acc : float) (xs : list float) : float :=
  fold_left PrimFloat.add xs acc.

(** A host whose built-ins are never consulted, for concrete runs of graphs
    without [pow], [tanh] or [exp]. *)
Definition js0 : Builtins :=
  {| Math_pow := fun _ _ => nan; Math_exp := fun _ => nan;
     Number_toString := fun _ => EmptyString |}.

(** Two stores with the same objects up to their gradients. *)
Definition same_shape (h h' : heap) : Prop :=
  length h' = length h /\ forall r, shape (h' !!! r) = shape (h !!! r).

(** The object a method returns, with its closure already assigned. *)
Definition result_node (d : float) (c : closure) (children : list nat)
    (op : string) : Value :=
  {| data := d; grad := 0%float; _backward := c;
     _prev := JSSet.from children; _op := op; label := EmptyString |}.

(** One call of [buildTopo] on [v]: the objects of [visited] that are not
    older than [v] are already in [topo]. *)
Definition topo_post (h : list Value) (v : nat) (V T : list nat)
    (res : option (list nat * list nat)) : Prop :=
  exists V' Tn, res = Some (V', T ++ Tn) /\
    (forall n, n ∈ V' <-> n ∈ V \/ n ∈ Tn) /\
    topo_sorted h (T ++ Tn) /\ NoDup (T ++ Tn) /\
    (forall n, n ∈ Tn -> reachable h v n /\ n ∉ V).

(** One call of [build] on [v]: the objects of [nodes] that are not older
    than [v] already have all their operands in [nodes]. *)
Definition build_post (h : list Value) (v : nat) (N : list nat) (E : list (nat * nat))
    (res : option (list nat * list (nat * nat))) : Prop :=
  exists Nn En, res = Some (N ++ Nn, E ++ En) /\
    NoDup (N ++ Nn) /\ v ∈ N ++ Nn /\
    (forall n, n ∈ Nn ->
       reachable h v n /\ forall c, c ∈ prev h n -> c ∈ N ++ Nn) /\
    (forall c n, (c, n) ∈ En <-> n ∈ Nn /\ c ∈ prev h n) /\
    NoDup En.

Definition build_body (h : list Value) (stack v : nat) : nat ->
    list nat * list (nat * nat) -> option (list nat * list (nat * nat)) :=
  fun child '(nodes, edges) =>
    build stack h child (nodes, edges ++ [(child, v)]).

(** Running a list of gradient increments one after the other. *)
Definition apply_contribs (l : list (nat * float)) (h : list Value)
    : list Value :=
  fold_left (fun h p => add_grad p.1 p.2 h) l h.

(** [consumers_first h l]: in [l] every object stands before its operands. *)
Definition consumers_first (h : list Value) (l : list nat) : Prop :=
  forall i j c t, l !! i = Some c -> l !! j = Some t -> t ∈ prev h c -> i < j.

(** How many of the assignments of a closure go to the object [n]. *)
Definition slots (c : closure) (n : nat) : nat :=
  length (filter (fun t => t = n) (targets c)).

(** The store [Examples.complex] leaves when run on an empty one. *)
Definition complex_store : list Value :=
  match Examples_complex [] with Return _ h => h | Throw _ h => h end.

(** [a = 1], [b = 2], [c = a.add(b)]. *)
Definition sum_store : list Value :=
  match (a <- createValue 1%float "a" ;;
         b <- createValue 2%float "b" ;;
         add a (Node b)) [] with
  | Return _ h => h
  | Throw _ h => h
  end.

(** [operands_first h topo]: every object of [topo] stands after every
    object it depends on (its transitive operands). *)
Definition operands_first (h : list Value) (topo : list nat) : Prop :=
  forall i j n m, topo !! i = Some n -> topo !! j = Some m -> n <> m ->
  reachable h n m -> j < i.

(** [dependents_first h topo]: every object of [topo] stands after every
    object that depends on it (its transitive consumers). *)
Definition dependents_first (h : list Value) (topo : list nat) : Prop :=
  forall i j n m, topo !! i = Some n -> topo !! j = Some m -> n <> m ->
  reachable h m n -> j < i.

(** A method call that only allocates: the old store is a prefix of the
    new one and the returned object is one of the new ones. *)
Definition allocates_only (h : list Value) (res : outcome nat) : Prop :=
  match res with
  | Return out h' =>
      exists news, h' = h ++ news /\ length h <= out < length h'
  | Throw _ _ => False
  end.

(** [nodes.forEach(node => { node.grad = 0; })] *)
Definition zero_all (nodes : list nat) (h : list Value) : list Value :=
  fold_left (fun h node => set_grad node 0%float h) nodes h.

(** Two leaves [a = 1], [b = 2]. *)
Definition leaves_store : list Value :=
  match (createValue 1%float "a" ;;; createValue 2%float "b") [] with
  | Return _ h => h
  | Throw _ h => h
  end.


(** [a = 1], [b = 2], [c = 3], [d = a.add(b)], [L = d.add(c)]; the
    result names [a] and [L]. *)
Definition nested_sum : M (nat * nat) :=
  a <- createValue 1%float "a" ;;
  b <- createValue 2%float "b" ;;
  c <- createValue 3%float "c" ;;
  d <- add a (Node b) ;;
  L <- add d (Node c) ;;
  ret (a, L).

(** ** Rounding of binary64 sums, on integers

    The sum of two numbers of the same sign is an integer mantissa [M] at
    the smaller exponent; it is rounded to 53 bits, ties to even.  In the
    sums below at most two bits are shifted out: [rne M sh] is the rounded
    mantissa after [sh] bits, [finish] halves a mantissa that the rounding
    carried to 2^53 and checks the exponent range. *)
Definition rne (M sh : Z) : Z :=
  match sh with
  | 1%Z => if Z.odd M
           then (if Z.even (Z.div2 M) then Z.div2 M else Z.div2 M + 1)%Z
           else Z.div2 M
  | 2%Z => let q := Z.div2 (Z.div2 M) in
           match Z.odd (Z.div2 M), Z.odd M with
           | false, _ => q
           | true, false => if Z.even q then q else (q + 1)%Z
           | true, true => (q + 1)%Z
           end
  | _ => M
  end.

Definition sh_of (M : Z) : Z :=
  if (M <? 9007199254740992)%Z then 0%Z
  else if (M <? 18014398509481984)%Z then 1%Z else 2%Z.

Definition finish (s : bool) (R e : Z) : spec_float :=
  if (R =? 9007199254740992)%Z then
    if (e + 1 <=? 971)%Z then S754_finite s 4503599627370496 (e + 1)
    else S754_infinity s
  else
    if (e <=? 971)%Z then S754_finite s (Z.to_pos R) e else S754_infinity s.

Definition round64 (s : bool) (M e : Z) : spec_float :=
  finish s (rne M (sh_of M)) (e + sh_of M).

(** [a = 3], [s = a.mul(a)]. *)
Definition square_store : list Value :=
  match (a <- createValue 3%float "a" ;; mul a (Node a)) [] with
  | Return _ h => h
  | Throw _ h => h
  end.


(** An operand a method may be handed on store [h]: an object of [h] or
    a raw number. *)
Definition operand_ok (h : list Value) (o : operand) : Prop :=
  match o with
  | Node r => r < length h
  | Num _ => True
  end.

(** A method call that returns an object of a well-formed store. *)
Definition keeps_wf (res : outcome nat) : Prop :=
  match res with
  | Return out h' => wf h' /\ out < length h'
  | Throw _ _ => False
  end.

(** The number an operand stands for. *)
Definition operand_data (h : list Value) (o : operand) : float :=
  match o with
  | Node r => data (h !!! r)
  | Num x => x
  end.

(** ** nn.js: neurons, layers and the perceptron

    A neuron, a layer and a perceptron are plain objects that hold
    references to [Value]s.  [Math.random] is a built-in of the host; every
    call of it in this file is the first argument of a [new Value], so the
    number drawn is given as a function of the address the object gets. *)

Definition nat_to_float (n : nat) : float :=
  PrimFloat.of_uint63 (Uint63.of_Z (Z.of_nat n)).

(** [p.data += ...] *)
Definition with_data (d : float) (v : Value) : Value :=
  {| data := d; grad := grad v; _backward := _backward v;
     _prev := _prev v; _op := _op v; label := label v |}.
Definition set_data (r : nat) (d : float) (h : list Value) : list Value :=
  alter (with_data d) r h.

(** [for (let i = start; i < start + k; i++) acc = body(i, acc)] *)
Fixpoint for_upto {A : Type} (k i : nat) (body : nat -> A -> M A) (acc : A)
    : M A :=
  match k with
  | 0 => ret acc
  | S k' => a <- body i acc ;; for_upto k' (S i) body a
  end.

(** [xs.map(f)] for an [f] that runs in the store. *)
Fixpoint map_M {A B : Type} (f : A -> M B) (xs : list A) : M (list B) :=
  match xs with
  | [] => ret []
  | x :: xs' => y <- f x ;; ys <- map_M f xs' ;; ret (y :: ys)
  end.

Global Instance operand_inhabited : Inhabited operand := populate (Num 0%float).

Module NN.

Record Neuron := { nin : nat; w : list nat; b : nat }.
Record Layer := { layer_nin : nat; nout : nat; neurons : list Neuron }.
Record MLP := { mlp_nin : nat; nouts : list nat; layers : list Layer }.

(** What [forward] is handed: an array of [Value]s and numbers, or, after
    a layer of one neuron, a single [Value] (which has no [length]). *)
Inductive input :=
| Arr (xs : list operand)
| Single (r : nat).

Section WithHost.
Variable js : Builtins.
Variable Math_random : nat -> float.

(** [`Expected ${this.nin} inputs, got ${x.length}`] *)
Definition expected_message (n : nat) (len : option nat) : string :=
  ("Expected " ++ Number_toString js (nat_to_float n) ++ " inputs, got " ++
   match len with
   | Some k => Number_toString js (nat_to_float k)
   | None => "undefined"
   end)%string.

(** [new Value(Math.random() * 2 - 1, [], '', label)] *)
Definition random_Value (lbl : string) : M nat :=
  d <- read (fun h => (Math_random (length h) * 2 - 1)%float) ;;
  new_Value d [] "" lbl.

(** [Neuron.init] *)
Definition Neuron_init (n : nat) : M (list nat * nat) :=
  ws <- for_upto n 0
          (fun i ws =>
             weight <- random_Value ("w" ++ Number_toString js (nat_to_float i)) ;;
             ret (ws ++ [weight])) [] ;;
  bias <- random_Value "b" ;;
  ret (ws, bias).

(** [new Neuron(nin)] *)
Definition Neuron_new (n : nat) : M Neuron :=
  wb <- Neuron_init n ;;
  ret {| nin := n; w := fst wb; b := snd wb |}.

Definition Neuron_forward (n : Neuron) (x : input) : M nat :=
  match x with
  | Arr xs =>
      if Nat.eqb (length xs) (nin n) then
        inputs <- map_M promote xs ;;
        act <- for_upto (nin n) 0
                 (fun i act =>
                    p <- mul (w n !!! i) (Node (inputs !!! i)) ;;
                    add act (Node p)) (b n) ;;
        tanh js act
      else throw (Error (expected_message (nin n) (Some (length xs))))
  | Single _ => throw (Error (expected_message (nin n) None))
  end.

Definition Neuron_parameters (n : Neuron) : list nat := w n ++ [b n].

(** [new Layer(nin, nout)] *)
Definition Layer_new (n_in n_out : nat) : M Layer :=
  ns <- for_upto n_out 0
          (fun _ ns => n <- Neuron_new n_in ;; ret (ns ++ [n])) [] ;;
  ret {| layer_nin := n_in; nout := n_out; neurons := ns |}.

(** [outs.length === 1 ? outs[0] : outs] *)
Definition Layer_forward (l : Layer) (x : input) : M input :=
  outs <- map_M (fun n => Neuron_forward n x) (neurons l) ;;
  ret (match outs with
       | [o] => Single o
       | _ => Arr (map Node outs)
       end).

Definition Layer_parameters (l : Layer) : list nat :=
  concat (map Neuron_parameters (neurons l)).

(** [new MLP(nin, nouts)]; [sz = [nin, ...nouts]] *)
Definition MLP_new (n_in : nat) (n_outs : list nat) : M MLP :=
  let sz := n_in :: n_outs in
  ls <- for_upto (length n_outs) 0
          (fun i ls => l <- Layer_new (sz !!! i) (sz !!! (S i)) ;;
                       ret (ls ++ [l])) [] ;;
  ret {| mlp_nin := n_in; nouts := n_outs; layers := ls |}.

(** [for (const layer of this.layers) output = layer.forward(output)] *)
Fixpoint forward_through (ls : list Layer) (output : input) : M input :=
  match ls with
  | [] => ret output
  | l :: ls' => o <- Layer_forward l output ;; forward_through ls' o
  end.

Definition MLP_forward (m : MLP) (x : input) : M input :=
  forward_through (layers m) x.

Definition MLP_parameters (m : MLP) : list nat :=
  concat (map Layer_parameters (layers m)).

(** [Module.zeroGrad] and [MLP.zeroGrad], over a list of parameters *)
Definition zeroGrad (params : list nat) : M unit :=
  write (fun h => fold_left (fun h p => set_grad p 0%float h) params h).

(** [MLP.updateParameters(learningRate = 0.01)] *)
Definition updateParameters (m : MLP) (learningRate : option float) : M unit :=
  let lr := default 0x1.47ae147ae147bp-7%float (* 0.01 *) learningRate in
  write (fun h =>
    fold_left
      (fun h p => set_data p (data (h !!! p) + - lr * grad (h !!! p))%float h)
      (MLP_parameters m) h).

(** [Loss.mse] *)
Definition Loss_mse (predictions targets : list operand) : M nat :=
  if Nat.eqb (length predictions) (length targets) then
    zero <- new_Value 0%float [] "" "" ;;
    for_upto (length predictions) 0
      (fun i totalLoss =>
         pred <- promote (predictions !!! i) ;;
         target <- promote (targets !!! i) ;;
         diff <- sub pred (Node target) ;;
         sq <- pow js diff (JNumber 2%float) ;;
         add totalLoss (Node sq)) zero
  else throw (Error "Predictions and targets must have the same length").

End WithHost.
End NN.

(** An object as the constructor makes it from no children. *)
Definition is_leaf (v : Value) : Prop :=
  grad v = 0%float /\ _prev v = [] /\ _backward v = Noop.

(** The loop of [updateParameters] over a list of parameters. *)
Definition descend (lr : float) (params : list nat) (h : list Value)
    : list Value :=
  fold_left
    (fun h p => set_data p (data (h !!! p) + - lr * grad (h !!! p))%float h)
    params h.

(** The activation a neuron computes before [tanh]: the bias plus each
    weight times its input, added from left to right. *)
Fixpoint weighted_sum (ws xs : list float) (acc : float) : float :=
  match ws, xs with
  | wi :: ws', x :: xs' => weighted_sum ws' xs' (acc + wi * x)%float
  | _, _ => acc
  end.

(** The value [tanh] stores: [(Math.exp(2x) - 1) / (Math.exp(2x) + 1)]. *)
Definition tanh_value (js : Builtins) (x : float) : float :=
  ((Math_exp js (2 * x) - 1) / (Math_exp js (2 * x) + 1))%float.

(** What [Loss.mse] adds up: for each prediction [p] and target [t], from
    left to right, [Math.pow(p + t * -1, 2)]. *)
Fixpoint squared_error (js : Builtins) (ps ts : list float) (acc : float)
    : float :=
  match ps, ts with
  | p :: ps', t :: ts' =>
      squared_error js ps' ts' (acc + Math_pow js (p + t * -1) 2)%float
  | _, _ => acc
  end.

(** The number of objects a perceptron of sizes [sz = [nin, ...nouts]]
    holds: [sz[i] + 1] for each of the [sz[i+1]] neurons of layer [i]. *)
Fixpoint parameter_count (sz : list nat) : nat :=
  match sz with
  | a :: rest =>
      match rest with
      | b :: _ => b * S a + parameter_count rest
      | [] => 0
      end
  | [] => 0
  end.

(** ** Concrete networks

    [new Neuron(2)] and [new MLP(1, [1, 1])], each on an empty store, with
    a [Math.random] that always answers 0.75, so that every weight and
    bias is 0.5. *)
Definition three_quarters : nat -> float := fun _ => 0.75%float.

Definition neuron_run : outcome NN.Neuron := NN.Neuron_new js0 three_quarters 2 [].

Definition two_input_neuron : NN.Neuron :=
  match neuron_run with
  | Return n _ => n
  | Throw _ _ => {| NN.nin := 0; NN.w := []; NN.b := 0 |}
  end.

Definition neuron_store : list Value :=
  match neuron_run with Return _ h => h | Throw _ h => h end.

Definition narrow_run : outcome NN.MLP := NN.MLP_new js0 three_quarters 1 [1; 1] [].

Definition narrow_mlp : NN.MLP :=
  match narrow_run with
  | Return m _ => m
  | Throw _ _ => {| NN.mlp_nin := 0; NN.nouts := []; NN.layers := [] |}
  end.

Definition narrow_store : list Value :=
  match narrow_run with Return _ h => h | Throw _ h => h end.

Ltac by_computation := apply (bool_decide_unpack _); vm_compute; exact I.

(** * Facts about the store *)

Section StoreFacts.
Implicit Types (h : heap) (r i : ref) (v : Value).

Lemma shape_inv v v' :
  shape v = shape v' ->
  data v = data v' /\ _backward v = _backward v' /\ _prev v = _prev v' /\
  _op v = _op v' /\ label v = label v'.
Proof. unfold shape. intros H. injection H. tauto. Qed.

Lemma lookup_set_grad_ne r r' g h :
  r <> r' -> set_grad r g h !!! r' = h !!! r'.
Proof. intros. unfold set_grad. by rewrite list_lookup_total_alter_ne. Qed.

Lemma grad_set_grad_eq r g h :
  r < length h -> grad (set_grad r g h !!! r) = g.
Proof. intros. unfold set_grad. by rewrite list_lookup_total_alter_eq. Qed.

Lemma shape_set_grad r r' g h :
  shape (set_grad r g h !!! r') = shape (h !!! r').
Proof.
  unfold set_grad. rewrite list_lookup_total_alter.
  case_decide as Hd; [destruct Hd as [-> _]|]; reflexivity.
Qed.

Lemma length_set_grad r g h : length (set_grad r g h) = length h.
Proof. apply length_alter. Qed.

Lemma same_shape_refl h : same_shape h h.
Proof. by split. Qed.

Lemma same_shape_trans h1 h2 h3 :
  same_shape h1 h2 -> same_shape h2 h3 -> same_shape h1 h3.
Proof.
  intros [L1 S1] [L2 S2]. split; [congruence|].
  intros r. by rewrite S2, S1.
Qed.

Lemma same_shape_sym h1 h2 : same_shape h1 h2 -> same_shape h2 h1.
Proof. intros [L1 S1]. split; [done|]. intros r. by rewrite S1. Qed.

Lemma same_shape_set_grad r g h : same_shape h (set_grad r g h).
Proof. split; [apply length_set_grad|]. intros. apply shape_set_grad. Qed.

Lemma same_shape_add_grad r x h : same_shape h (add_grad r x h).
Proof. apply same_shape_set_grad. Qed.

Lemma same_shape_prev h h' r : same_shape h h' -> prev h' r = prev h r.
Proof.
  intros [_ S]. unfold prev. by destruct (shape_inv _ _ (S r)) as (_&_&->&_).
Qed.

Lemma same_shape_backward h h' r :
  same_shape h h' -> _backward (h' !!! r) = _backward (h !!! r).
Proof. intros [_ S]. by destruct (shape_inv _ _ (S r)) as (_&->&_). Qed.

Lemma same_shape_data h h' r :
  same_shape h h' -> data (h' !!! r) = data (h !!! r).
Proof. intros [_ S]. by destruct (shape_inv _ _ (S r)) as (->&_). Qed.

(** ** Well-formed stores *)

Lemma wf_from_lookup i h j v :
  wf_from i h -> h !! j = Some v -> node_ok (i + j) v.
Proof.
  revert i j. induction h as [|w h IH]; intros i j Hwf Hj; [done|].
  destruct Hwf as [Hw Hwf]. destruct j as [|j]; simpl in Hj.
  - injection Hj as <-. by rewrite Nat.add_0_r.
  - replace (i + S j) with (S i + j) by lia. eauto.
Qed.

Lemma wf_from_intro i h :
  (forall j v, h !! j = Some v -> node_ok (i + j) v) -> wf_from i h.
Proof.
  revert i. induction h as [|w h IH]; intros i H; [done|]. split.
  - specialize (H 0 w eq_refl). by rewrite Nat.add_0_r in H.
  - apply IH. intros j v Hj. replace (S i + j) with (i + S j) by lia.
    by apply H.
Qed.

Lemma wf_lookup h i v : wf h -> h !! i = Some v -> node_ok i v.
Proof. intros Hwf Hi. apply (wf_from_lookup 0 h i v Hwf Hi). Qed.

Lemma wf_intro h : (forall i v, h !! i = Some v -> node_ok i v) -> wf h.
Proof. intros H. apply wf_from_intro. intros j v. apply H. Qed.

Lemma wf_node h i : wf h -> i < length h -> node_ok i (h !!! i).
Proof.
  intros Hwf Hi. eapply wf_lookup; [done|].
  by apply list_lookup_lookup_total_lt.
Qed.

Lemma prev_out_of_range h i : length h <= i -> prev h i = [].
Proof.
  intros Hi. unfold prev. rewrite list_lookup_total_alt.
  by rewrite (lookup_ge_None_2 h i Hi).
Qed.

Lemma wf_prev_lt h i c : wf h -> c ∈ prev h i -> c < i.
Proof.
  intros Hwf Hc. destruct (decide (i < length h)) as [Hi|Hi].
  - destruct (wf_node h i Hwf Hi) as (Hlt&_). rewrite Forall_forall in Hlt.
    by apply Hlt.
  - rewrite prev_out_of_range in Hc by lia. by apply elem_of_nil in Hc.
Qed.

Lemma wf_prev_NoDup h i : wf h -> NoDup (prev h i).
Proof.
  intros Hwf. destruct (decide (i < length h)) as [Hi|Hi].
  - by destruct (wf_node h i Hwf Hi) as (_&Hnd&_).
  - rewrite prev_out_of_range by lia. constructor.
Qed.

Lemma backward_out_of_range h i : length h <= i -> _backward (h !!! i) = Noop.
Proof.
  intros Hi. rewrite list_lookup_total_alt.
  by rewrite (lookup_ge_None_2 h i Hi).
Qed.

Lemma wf_targets h i t :
  wf h -> t ∈ targets (_backward (h !!! i)) -> t ∈ prev h i.
Proof.
  intros Hwf Ht. destruct (decide (i < length h)) as [Hi|Hi].
  - destruct (wf_node h i Hwf Hi) as (_&_&Hts&_).
    rewrite Forall_forall in Hts. by apply Hts.
  - rewrite backward_out_of_range in Ht by lia. by apply elem_of_nil in Ht.
Qed.

Lemma wf_owner h i o :
  wf h -> owner (_backward (h !!! i)) = Some o -> o = i.
Proof.
  intros Hwf Ho. destruct (decide (i < length h)) as [Hi|Hi].
  - destruct (wf_node h i Hwf Hi) as (_&_&_&Hown).
    rewrite Ho in Hown. done.
  - rewrite backward_out_of_range in Ho by lia. done.
Qed.

Lemma node_ok_shape i v v' : shape v = shape v' -> node_ok i v -> node_ok i v'.
Proof.
  intros H. destruct (shape_inv _ _ H) as (_&Hb&Hp&_).
  unfold node_ok. by rewrite Hb, Hp.
Qed.

Lemma wf_same_shape h h' : same_shape h h' -> wf h -> wf h'.
Proof.
  intros [L S] Hwf. apply wf_intro. intros i v Hi.
  assert (i < length h) as Hlt by (rewrite <- L; by eapply lookup_lt_Some).
  apply list_lookup_total_correct in Hi. subst v.
  eapply node_ok_shape; [symmetry; apply S|]. by apply wf_node.
Qed.

(** ** Reachability *)

Lemma reachable_trans h a b c :
  reachable h a b -> reachable h b c -> reachable h a c.
Proof. induction 1; eauto using reachable. Qed.

Lemma reachable_le h r n : wf h -> reachable h r n -> n <= r.
Proof.
  intros Hwf. induction 1 as [|r c n Hc _ IH]; [done|].
  apply (wf_prev_lt h r c Hwf) in Hc. lia.
Qed.

Lemma reachable_same_shape h h' r n :
  same_shape h h' -> reachable h r n -> reachable h' r n.
Proof.
  intros HS. induction 1 as [|r c n Hc _ IH]; [constructor|].
  econstructor; [|done]. by rewrite (same_shape_prev h h' r HS).
Qed.

Lemma reachable_in_range h r n :
  wf h -> r < length h -> reachable h r n -> n < length h.
Proof. intros Hwf Hr Hn. apply (reachable_le h r n Hwf) in Hn. lia. Qed.

Lemma reachable_inv h r n :
  reachable h r n -> n = r \/ exists c, c ∈ prev h r /\ reachable h c n.
Proof. destruct 1; eauto. Qed.

End StoreFacts.

(** * The operations *)

Section Operations.
Variable js : Builtins.
Implicit Types (h : list Value) (r this out : nat) (v : Value).

Lemma JSSet_from_single a : JSSet.from [a] = [a].
Proof. reflexivity. Qed.

Lemma JSSet_from_pair a b :
  JSSet.from [a; b] = if decide (a = b) then [a] else [a; b].
Proof.
  unfold JSSet.from, JSSet.add, JSSet.has. simpl.
  destruct (decide (a = b)) as [->|Hne].
  - rewrite bool_decide_eq_true_2; [done|]. apply list_elem_of_singleton; done.
  - rewrite bool_decide_eq_false_2; [done|].
    rewrite list_elem_of_singleton. congruence.
Qed.

Lemma set_backward_new h v c :
  set_backward (length h) c (h ++ [v]) = h ++ [with_backward c v].
Proof.
  unfold set_backward.
  rewrite <- (Nat.add_0_r (length h)) at 1. by rewrite alter_app_r.
Qed.

Lemma set_label_new h v l :
  set_label (length h) l (h ++ [v]) = h ++ [with_label l v].
Proof.
  unfold set_label.
  rewrite <- (Nat.add_0_r (length h)) at 1. by rewrite alter_app_r.
Qed.

Lemma lookup_total_new h v : (h ++ [v]) !!! length h = v.
Proof. rewrite lookup_total_app_r by lia. by rewrite Nat.sub_diag. Qed.

Lemma lookup_total_old h l r : r < length h -> (h ++ l) !!! r = h !!! r.
Proof. apply lookup_total_app_l. Qed.

Lemma add_Node this other h :
  add this (Node other) h =
  Return (length h)
    (h ++ [result_node (data (h !!! this) + data (h !!! other))%float
             (AddBack this other (length h)) [this; other] "+"]).
Proof.
  unfold add, bind, promote, ret, read, write, new_Value. simpl.
  by rewrite set_backward_new.
Qed.

Lemma mul_Node this other h :
  mul this (Node other) h =
  Return (length h)
    (h ++ [result_node (data (h !!! this) * data (h !!! other))%float
             (MulBack this other (length h)) [this; other] "*"]).
Proof.
  unfold mul, bind, promote, ret, read, write, new_Value. simpl.
  by rewrite set_backward_new.
Qed.

Lemma add_Num this x h :
  add this (Num x) h =
  add this (Node (length h)) (h ++ [result_node x Noop [] EmptyString]).
Proof. reflexivity. Qed.

Lemma mul_Num this x h :
  mul this (Num x) h =
  mul this (Node (length h)) (h ++ [result_node x Noop [] EmptyString]).
Proof. reflexivity. Qed.

Lemma pow_JNumber this p h :
  pow js this (JNumber p) h =
  Return (length h)
    (h ++ [result_node (Math_pow js (data (h !!! this)) p)
             (PowBack this p (length h)) [this]
             ("**" ++ Number_toString js p)]).
Proof.
  unfold pow, bind, ret, read, write, new_Value. simpl.
  by rewrite set_backward_new.
Qed.

Lemma relu_eq this h :
  relu this h =
  Return (length h)
    (h ++ [result_node (if (data (h !!! this) <? 0)%float then 0%float
                        else data (h !!! this))
             (ReluBack this (length h)) [this] "ReLU"]).
Proof.
  unfold relu, bind, ret, read, write, new_Value. simpl.
  by rewrite set_backward_new.
Qed.

Lemma tanh_eq this h :
  tanh js this h =
  let x := data (h !!! this) in
  let t := ((Math_exp js (2 * x) - 1) / (Math_exp js (2 * x) + 1))%float in
  Return (length h)
    (h ++ [result_node t (TanhBack this t (length h)) [this] "tanh"]).
Proof.
  unfold tanh, bind, ret, read, write, new_Value. simpl.
  by rewrite set_backward_new.
Qed.

Lemma exp_eq this h :
  exp js this h =
  Return (length h)
    (h ++ [result_node (Math_exp js (data (h !!! this)))
             (ExpBack this (length h)) [this] "exp"]).
Proof.
  unfold exp, bind, ret, read, write, new_Value. simpl.
  by rewrite set_backward_new.
Qed.

End Operations.

(** * The two depth-first traversals *)

Section Traversals.
Variable h : list Value.
Hypothesis Hwf : wf h.
Implicit Types (v n c : nat) (V T : list nat).

Lemma JSSet_has_true V v : v ∈ V -> JSSet.has V v = true.
Proof. intros. by apply bool_decide_eq_true_2. Qed.

Lemma JSSet_has_false V v : v ∉ V -> JSSet.has V v = false.
Proof. intros. by apply bool_decide_eq_false_2. Qed.

Lemma JSSet_add_new V v : v ∉ V -> JSSet.add V v = V ++ [v].
Proof. intros. unfold JSSet.add. by rewrite JSSet_has_false. Qed.

Lemma topo_sorted_nil : topo_sorted h [].
Proof. intros i n Hi. done. Qed.

Lemma topo_sorted_snoc T v :
  topo_sorted h T -> (forall c, c ∈ prev h v -> c ∈ T) ->
  topo_sorted h (T ++ [v]).
Proof.
  intros HT Hv i n Hi c Hc.
  destruct (decide (i < length T)) as [Hlt|Hge].
  - rewrite lookup_app_l in Hi by done.
    destruct (HT i n Hi c Hc) as (j&Hj&Hjc). exists j. split; [done|].
    rewrite lookup_app_l by lia. done.
  - rewrite lookup_app_r in Hi by lia.
    destruct (i - length T) as [|k] eqn:Hk; [|by destruct k].
    injection Hi as <-. apply Hv in Hc.
    apply list_elem_of_lookup in Hc as [j Hj]. exists j.
    pose proof (lookup_lt_Some _ _ _ Hj). split; [lia|].
    by rewrite lookup_app_l.
Qed.

Lemma topo_sorted_closed T n c :
  topo_sorted h T -> n ∈ T -> c ∈ prev h n -> c ∈ T.
Proof.
  intros HT Hn Hc. apply list_elem_of_lookup in Hn as [i Hi].
  destruct (HT i n Hi c Hc) as (j&_&Hj). by eapply list_elem_of_lookup_2.
Qed.

Lemma closed_reachable T r n :
  (forall a b, a ∈ T -> b ∈ prev h a -> b ∈ T) ->
  r ∈ T -> reachable h r n -> n ∈ T.
Proof. intros Hcl Hr Hn. induction Hn; eauto. Qed.

(** ** [buildTopo] *)

Lemma buildTopo_loop stack v cs :
  (forall c V T, c < stack ->
     (forall n, n ∈ V -> n <= c -> n ∈ T) -> (forall n, n ∈ T -> n ∈ V) ->
     topo_sorted h T -> NoDup T ->
     topo_post h c V T (buildTopo stack h c (V, T)) /\
     (exists V' T', buildTopo stack h c (V, T) = Some (V', T') /\ c ∈ T')) ->
  v <= stack -> (forall c, c ∈ cs -> c ∈ prev h v) ->
  forall V T,
  (forall n, n ∈ V -> n < v -> n ∈ T) -> (forall n, n ∈ T -> n ∈ V) ->
  topo_sorted h T -> NoDup T ->
  exists V' Tn, for_of (buildTopo stack h) cs (V, T) = Some (V', T ++ Tn) /\
    (forall n, n ∈ V' <-> n ∈ V \/ n ∈ Tn) /\
    topo_sorted h (T ++ Tn) /\ NoDup (T ++ Tn) /\
    (forall c, c ∈ cs -> c ∈ T ++ Tn) /\
    (forall n, n ∈ Tn -> reachable h v n /\ n < v /\ n ∉ V).
Proof.
  intros IH Hv. induction cs as [|c cs IHcs]; intros Hcs V T HVT HTV HT HND.
  - exists V, []. rewrite app_nil_r. simpl. split; [done|].
    split; [intros n; rewrite elem_of_nil; tauto|].
    split; [done|]. split; [done|].
    split; intros ? Hnil; by apply elem_of_nil in Hnil.
  - assert (c ∈ prev h v) as Hc by (apply Hcs; left).
    assert (c < v) as Hcv by (by apply (wf_prev_lt h v c Hwf)).
    destruct (IH c V T) as [(V1&Tn1&E1&HV1&HT1&HND1&HR1) (V1'&T1'&E1'&Hc1)];
      [lia|intros; apply HVT; [done|lia]|done..|].
    rewrite E1 in E1'. injection E1' as <- <-.
    destruct (IHcs) with (V := V1) (T := T ++ Tn1)
      as (V2&Tn2&E2&HV2&HT2&HND2&Hcs2&HR2).
    + intros c' Hc'. apply Hcs. by right.
    + intros n Hn Hnv. apply HV1 in Hn as [Hn|Hn].
      * apply elem_of_app. left. by apply HVT.
      * apply elem_of_app. by right.
    + intros n Hn. apply HV1. apply elem_of_app in Hn as [Hn|Hn]; auto.
    + done.
    + done.
    + exists V2, (Tn1 ++ Tn2). simpl. rewrite E1, E2.
      rewrite <- (assoc_L (++)) in *. split; [done|].
      split; [|split; [done|split; [done|split]]].
      * intros n. rewrite HV2, HV1, elem_of_app. tauto.
      * intros c' Hc'. apply elem_of_cons in Hc' as [->|Hc'].
        -- rewrite (assoc_L (++)). apply elem_of_app. by left.
        -- by apply Hcs2.
      * intros n Hn. apply elem_of_app in Hn as [Hn|Hn].
        -- destruct (HR1 n Hn) as [Hr HnV].
           pose proof (reachable_le h c n Hwf Hr).
           split; [by econstructor|]. split; [lia|done].
        -- destruct (HR2 n Hn) as (Hr&Hlt&HnV1). split; [done|].
           split; [done|]. intros HnV. apply HnV1. apply HV1. by left.
Qed.

Lemma buildTopo_spec stack : forall v V T,
  v < stack ->
  (forall n, n ∈ V -> n <= v -> n ∈ T) -> (forall n, n ∈ T -> n ∈ V) ->
  topo_sorted h T -> NoDup T ->
  topo_post h v V T (buildTopo stack h v (V, T)) /\
  (exists V' T', buildTopo stack h v (V, T) = Some (V', T') /\ v ∈ T') /\
  (v ∉ V -> exists V' T', buildTopo stack h v (V, T) = Some (V', T' ++ [v])).
Proof.
  induction stack as [|stack IH]; intros v V T Hv HVT HTV HT HND; [lia|].
  simpl. destruct (decide (v ∈ V)) as [HvV|HvV].
  - rewrite JSSet_has_true by done. split; [|split].
    + exists V, []. rewrite app_nil_r. split; [done|].
      split; [intros n; rewrite elem_of_nil; tauto|].
      split; [done|]. split; [done|].
    intros ? Hnil; by apply elem_of_nil in Hnil.
    + exists V, T. split; [done|]. by apply HVT.
    + done.
  - rewrite JSSet_has_false by done. rewrite JSSet_add_new by done.
    destruct (buildTopo_loop stack v (prev h v)) with (V := V ++ [v]) (T := T)
      as (V'&Tn&E&HV'&HT'&HND'&Hcs&HR).
    + intros c V0 T0 Hc H1 H2 H3 H4.
      destruct (IH c V0 T0 Hc H1 H2 H3 H4) as (P1&P2&_). by split.
    + lia.
    + done.
    + intros n Hn Hnv. apply elem_of_app in Hn as [Hn|Hn].
      * apply HVT; [done|lia].
      * apply list_elem_of_singleton in Hn. lia.
    + intros n Hn. apply elem_of_app. left. by apply HTV.
    + done.
    + done.
    + unfold prev in E. rewrite E.
      assert (v ∉ T ++ Tn) as HvT.
      { intros Hin. apply elem_of_app in Hin as [Hin|Hin].
        - by apply HvV, HTV.
        - destruct (HR v Hin) as (_&?&_). lia. }
      split; [|split].
      * exists V', (Tn ++ [v]). rewrite (assoc_L (++)). split; [done|].
        split; [|split; [|split]].
        -- intros n. rewrite HV', !elem_of_app. tauto.
        -- apply topo_sorted_snoc; [done|]. intros c Hc. by apply Hcs.
        -- apply NoDup_app. split; [done|]. split; [|apply NoDup_singleton].
           intros n Hn Hn'. apply list_elem_of_singleton in Hn'. by subst.
        -- intros n Hn. apply elem_of_app in Hn as [Hn|Hn].
           ++ destruct (HR n Hn) as (Hr&_&HnV). split; [done|].
              intros HnV'. apply HnV. apply elem_of_app. by left.
           ++ apply list_elem_of_singleton in Hn as ->. split; [constructor|done].
      * eexists _, _. split; [done|]. apply elem_of_app. right.
        by apply list_elem_of_singleton.
      * intros _. by eexists _, _.
Qed.

(** ** [build] *)

Lemma build_loop stack v cs :
  (forall c N E, c < stack ->
     (forall n, n ∈ N -> n <= c -> forall c', c' ∈ prev h n -> c' ∈ N) ->
     NoDup N -> build_post h c N E (build stack h c (N, E))) ->
  v <= stack -> (forall c, c ∈ cs -> c ∈ prev h v) -> NoDup cs ->
  forall N E,
  v ∈ N ->
  (forall n, n ∈ N -> n < v -> forall c', c' ∈ prev h n -> c' ∈ N) ->
  NoDup N ->
  exists Nn En, for_of (build_body h stack v) cs (N, E) = Some (N ++ Nn, E ++ En) /\
    NoDup (N ++ Nn) /\
    (forall n, n ∈ Nn ->
       reachable h v n /\ n < v /\ forall c, c ∈ prev h n -> c ∈ N ++ Nn) /\
    (forall c, c ∈ cs -> c ∈ N ++ Nn) /\
    (forall c n, (c, n) ∈ En <->
       (n ∈ Nn /\ c ∈ prev h n) \/ (n = v /\ c ∈ cs)) /\
    NoDup En.
Proof.
  intros IH Hv. induction cs as [|c cs IHcs]; intros Hcs HNDcs N E HvN Hcl HND.
  - exists [], []. rewrite !app_nil_r. simpl. split; [done|]. split; [done|].
    split; [intros ? Hnil; by apply elem_of_nil in Hnil|].
    split; [intros ? Hnil; by apply elem_of_nil in Hnil|].
    split; [|constructor].
    intros c n. rewrite !elem_of_nil. tauto.
  - assert (c ∈ prev h v) as Hc by (apply Hcs; left).
    assert (c < v) as Hcv by (by apply (wf_prev_lt h v c Hwf)).
    apply NoDup_cons in HNDcs as [Hccs HNDcs].
    destruct (IH c N (E ++ [(c, v)])) as (Nn1&En1&E1&HND1&Hc1&HR1&HE1&HNE1);
      [lia|intros n Hn Hle; apply Hcl; [done|lia]|done|].
    destruct (IHcs) with (N := N ++ Nn1) (E := (E ++ [(c, v)]) ++ En1)
      as (Nn2&En2&E2&HND2&HR2&Hcs2&HE2&HNE2).
    + intros c' Hc'. apply Hcs. by right.
    + done.
    + apply elem_of_app. by left.
    + intros n Hn Hnv c' Hc'. apply elem_of_app in Hn as [Hn|Hn].
      * apply elem_of_app. left. by apply (Hcl n).
      * by apply (HR1 n Hn).
    + done.
    + assert (forall n, n ∈ Nn1 -> n <> v) as Hnv1.
      { intros n Hn ->. apply NoDup_app in HND1 as (_&Hd&_). by apply (Hd v). }
      assert (forall n, n ∈ Nn2 -> n <> v) as Hnv2.
      { intros n Hn ->. apply NoDup_app in HND2 as (_&Hd&_).
        apply (Hd v); [|done]. apply elem_of_app. by left. }
      exists (Nn1 ++ Nn2), ([(c, v)] ++ En1 ++ En2).
      cbn [for_of].
      change (build_body h stack v c (N, E)) with (build stack h c (N, E ++ [(c, v)])).
      rewrite E1, E2.
      rewrite <- !(assoc_L (++)) in *.
      split; [done|]. split; [done|]. split; [|split; [|split]].
      * intros n Hn. apply elem_of_app in Hn as [Hn|Hn].
        -- destruct (HR1 n Hn) as [Hr Hcl1].
           pose proof (reachable_le h c n Hwf Hr).
           split; [by econstructor|]. split; [lia|].
           intros c' Hc'. apply Hcl1 in Hc'.
           rewrite (assoc_L (++)). apply elem_of_app. by left.
        -- by apply HR2.
      * intros c' Hc'. apply elem_of_cons in Hc' as [->|Hc'].
        -- rewrite (assoc_L (++)). apply elem_of_app. by left.
        -- by apply Hcs2.
      * intros c' n. rewrite !elem_of_app, list_elem_of_singleton, HE1, HE2.
        rewrite elem_of_cons. split.
        -- intros [Heq|[?|[?|?]]]; [injection Heq as -> ->|..]; tauto.
        -- intros [[[?|?] ?]|[-> [->|?]]]; tauto.
      * apply NoDup_app. split; [apply NoDup_singleton|]. split.
        -- intros e He. apply list_elem_of_singleton in He as ->.
           rewrite elem_of_app, HE1, HE2. intros [[Hn _]|[[Hn _]|[_ Hn]]].
           ++ by apply (Hnv1 v).
           ++ by apply (Hnv2 v).
           ++ done.
        -- apply NoDup_app. split; [done|]. split; [|done].
           intros [c' n]. rewrite HE1, HE2. intros [Hn1 _] [[Hn2 _]|[-> _]].
           ++ rewrite (assoc_L (++)) in HND2.
              apply NoDup_app in HND2 as (_&Hd&_). apply (Hd n); [|done].
              apply elem_of_app. by right.
           ++ by apply (Hnv1 v).
Qed.

Lemma build_spec stack : forall v N E,
  v < stack ->
  (forall n, n ∈ N -> n <= v -> forall c, c ∈ prev h n -> c ∈ N) ->
  NoDup N -> build_post h v N E (build stack h v (N, E)).
Proof.
  induction stack as [|stack IH]; intros v N E Hv Hcl HND; [lia|].
  simpl. destruct (decide (v ∈ N)) as [HvN|HvN].
  - rewrite JSSet_has_true by done.
    exists [], []. rewrite !app_nil_r. split; [done|]. split; [done|].
    split; [done|]. split; [intros ? Hnil; by apply elem_of_nil in Hnil|].
    split; [|constructor]. intros c n. rewrite !elem_of_nil. tauto.
  - rewrite JSSet_has_false by done. rewrite JSSet_add_new by done.
    destruct (build_loop stack v (prev h v)) with (N := N ++ [v]) (E := E)
      as (Nn&En&E1&HND1&HR&Hcs&HE&HNE).
    + intros c N0 E0 Hc H1 H2. by apply IH.
    + lia.
    + done.
    + by apply wf_prev_NoDup.
    + apply elem_of_app. right. by apply list_elem_of_singleton.
    + intros n Hn Hnv c Hc. apply elem_of_app. left.
      apply elem_of_app in Hn as [Hn|Hn].
      * apply (Hcl n); [done|lia|done].
      * apply list_elem_of_singleton in Hn. lia.
    + apply NoDup_app. split; [done|]. split; [|apply NoDup_singleton].
      intros n Hn Hn'. apply list_elem_of_singleton in Hn'. by subst.
    + change (for_of _ (_prev (h !!! v)) ?st) with
        (for_of (build_body h stack v) (prev h v) st).
      rewrite E1. exists ([v] ++ Nn), En. rewrite !(assoc_L (++)).
      split; [done|]. split; [done|]. split; [|split; [|split; [|done]]].
      * apply elem_of_app. left. apply elem_of_app. right.
        by apply list_elem_of_singleton.
      * intros n Hn. apply elem_of_app in Hn as [Hn|Hn].
        -- apply list_elem_of_singleton in Hn as ->. split; [constructor|].
           intros c Hc. by apply Hcs.
        -- destruct (HR n Hn) as (Hr&_&Hc). by split.
      * intros c n. rewrite HE, elem_of_app, list_elem_of_singleton. split.
        -- intros [[? ?]|[-> ?]]; tauto.
        -- intros [[->|?] ?]; tauto.
Qed.

End Traversals.

Section TraversalResults.
Variable h : list Value.
Hypothesis Hwf : wf h.

Lemma buildTopo_root stack root :
  root < stack ->
  exists V rest,
    buildTopo stack h root ([], []) = Some (V, rest ++ [root]) /\
    NoDup (rest ++ [root]) /\ topo_sorted h (rest ++ [root]) /\
    (forall n, n ∈ rest ++ [root] <-> reachable h root n).
Proof.
  intros Hs.
  destruct (buildTopo_spec h Hwf stack root [] []) as (P1&_&P3);
    [done|intros ? Hnil; by apply elem_of_nil in Hnil
    |intros ? Hnil; by apply elem_of_nil in Hnil
    |apply topo_sorted_nil|constructor|].
  destruct P1 as (V'&Tn&E&_&HT&HND&HR).
  destruct P3 as (V''&rest&E'); [by intros Hnil%elem_of_nil|].
  rewrite E in E'. injection E' as HV HTn. simpl in HTn. subst Tn V''.
  simpl in *. exists V', rest. split; [done|]. split; [done|].
  split; [done|]. intros n. split.
  - intros Hn. by apply HR.
  - apply closed_reachable.
    + intros a b. by apply topo_sorted_closed.
    + apply elem_of_app. right. by apply list_elem_of_singleton.
Qed.

Lemma build_root stack root :
  root < stack ->
  exists nodes edges,
    build stack h root ([], []) = Some (nodes, edges) /\
    NoDup nodes /\ NoDup edges /\
    (forall n, n ∈ nodes <-> reachable h root n) /\
    (forall c n, (c, n) ∈ edges <-> reachable h root n /\ c ∈ prev h n).
Proof.
  intros Hs.
  destruct (build_spec h Hwf stack root [] []) as (Nn&En&E&HND&Hr&HR&HE&HNE);
    [done|intros ? Hnil; by apply elem_of_nil in Hnil|constructor|].
  simpl in *. exists Nn, En. split; [done|]. split; [done|]. split; [done|].
  assert (forall n, n ∈ Nn <-> reachable h root n) as Hiff.
  { intros n. split; [by apply HR|].
    apply closed_reachable; [|done]. intros a b Ha. by apply (HR a). }
  split; [done|]. intros c n. by rewrite HE, Hiff.
Qed.

End TraversalResults.

(** * The backward pass *)

Section BackwardPass.
Variable js : Builtins.
Implicit Types (h : list Value) (r v c : nat) (l : list nat).

Lemma fsum_app acc xs ys : fsum acc (xs ++ ys) = fsum (fsum acc xs) ys.
Proof. apply fold_left_app. Qed.

Lemma grad_add_grad r x h r' :
  grad (add_grad r x h !!! r') =
  if decide (r = r' /\ r < length h) then (grad (h !!! r) + x)%float
  else grad (h !!! r').
Proof.
  unfold add_grad, set_grad. rewrite list_lookup_total_alter.
  case_decide as Hd; [destruct Hd as [-> ?]|]; done.
Qed.

Lemma apply_contribs_same_shape cs h : same_shape h (apply_contribs cs h).
Proof.
  revert h. induction cs as [|p cs IH]; intros h; [apply same_shape_refl|].
  eapply same_shape_trans; [apply (same_shape_add_grad p.1 p.2)|apply IH].
Qed.

Lemma grad_apply_contribs cs h r :
  r < length h ->
  grad (apply_contribs cs h !!! r) =
  fsum (grad (h !!! r)) (filter (fun p => p.1 = r) cs).*2.
Proof.
  revert h. induction cs as [|[t x] cs IH]; intros h Hr; [done|].
  simpl. rewrite IH by (unfold add_grad; by rewrite length_set_grad).
  rewrite grad_add_grad, filter_cons. simpl.
  destruct (decide (t = r)) as [->|Hne].
  - rewrite decide_True by done. done.
  - rewrite decide_False by tauto. done.
Qed.

Lemma grad_apply_contribs_out cs h r :
  length h <= r -> apply_contribs cs h !!! r = h !!! r.
Proof.
  intros Hr. destruct (apply_contribs_same_shape cs h) as [L _].
  rewrite !list_lookup_total_alt, !lookup_ge_None_2 by lia. done.
Qed.

Lemma lookup_add_grad_ne r r' x h :
  r <> r' -> add_grad r x h !!! r' = h !!! r'.
Proof. apply lookup_set_grad_ne. Qed.

Lemma data_add_grad r r' x h : data (add_grad r x h !!! r') = data (h !!! r').
Proof. apply same_shape_data, same_shape_add_grad. Qed.

Lemma run_closure_contribs (c : closure) h :
  (forall o, owner c = Some o -> o ∉ targets c) ->
  run_closure js c h = apply_contribs (contributions js c h) h.
Proof.
  intros Ho. destruct c as [|t o out|t o out|t p out|t out|t x out|t out];
    try reflexivity.
  - assert (t <> out) as Hne.
    { intros ->. apply (Ho out eq_refl). left. }
    simpl. by rewrite (lookup_add_grad_ne t out) by done.
  - assert (t <> out) as Hne.
    { intros ->. apply (Ho out eq_refl). left. }
    simpl. by rewrite (lookup_add_grad_ne t out), data_add_grad by done.
Qed.

Lemma call_backward_same_shape v h : same_shape h (call_backward js v h).
Proof.
  unfold call_backward.
  destruct (_backward (h !!! v)); simpl;
    repeat first [apply same_shape_refl | apply same_shape_add_grad
                 | eapply same_shape_trans; [apply same_shape_add_grad|] ].
Qed.

Lemma wf_owner_not_target h v o :
  wf h -> owner (_backward (h !!! v)) = Some o ->
  o ∉ targets (_backward (h !!! v)).
Proof.
  intros Hwf Ho Ht. apply (wf_owner h v o Hwf) in Ho as ->.
  apply (wf_targets h v v Hwf) in Ht. apply (wf_prev_lt h v v Hwf) in Ht. lia.
Qed.

Lemma call_backward_grad h v r :
  wf h -> r < length h ->
  grad (call_backward js v h !!! r) =
  fsum (grad (h !!! r)) (incr js (_backward (h !!! v)) h r).
Proof.
  intros Hwf Hr. unfold call_backward.
  rewrite run_closure_contribs by (intros o; by apply wf_owner_not_target).
  by apply grad_apply_contribs.
Qed.

Lemma incr_nil (c : closure) h r : r ∉ targets c -> incr js c h r = [].
Proof.
  intros Hr. unfold incr.
  destruct c as [|t o out|t o out|t p out|t out|t x out|t out]; simpl in *;
    rewrite ?not_elem_of_cons in Hr; rewrite ?filter_cons; simpl;
    repeat (rewrite decide_False by (simpl; intuition congruence)); done.
Qed.

Lemma contributions_agree (c : closure) h h' :
  same_shape h h' ->
  (forall o, owner c = Some o -> grad (h' !!! o) = grad (h !!! o)) ->
  contributions js c h' = contributions js c h.
Proof.
  intros HS Ho.
  destruct c as [|t o out|t o out|t p out|t out|t x out|t out]; simpl;
    rewrite ?(Ho out eq_refl), ?(same_shape_data h h') by done; done.
Qed.

Lemma call_backward_frame h v r :
  wf h -> r ∉ prev h v -> call_backward js v h !!! r = h !!! r.
Proof.
  intros Hwf Hr. destruct (decide (r < length h)) as [Hlt|Hge].
  - pose proof (call_backward_grad h v r Hwf Hlt) as Hg.
    rewrite incr_nil in Hg
      by (intros Ht; apply Hr; by apply (wf_targets h v r Hwf)).
    simpl in Hg. pose proof (call_backward_same_shape v h) as [_ HS].
    specialize (HS r). unfold shape in HS.
    destruct (call_backward js v h !!! r), (h !!! r). simpl in *.
    congruence.
  - pose proof (call_backward_same_shape v h) as [L _].
    rewrite !list_lookup_total_alt, !lookup_ge_None_2 by lia. done.
Qed.

Lemma run_list_same_shape l h : same_shape h (run_list js l h).
Proof.
  revert h. induction l as [|c l IH]; intros h; [apply same_shape_refl|].
  eapply same_shape_trans; [apply (call_backward_same_shape c)|apply IH].
Qed.

Lemma run_list_frame l h r :
  wf h -> (forall c, c ∈ l -> r ∉ prev h c) -> run_list js l h !!! r = h !!! r.
Proof.
  revert h. induction l as [|c l IH]; intros h Hwf Hl; [done|].
  simpl. rewrite IH.
  - apply call_backward_frame; [done|]. apply Hl. left.
  - eapply wf_same_shape; [apply call_backward_same_shape|done].
  - intros c' Hc'. rewrite (same_shape_prev h) by apply call_backward_same_shape.
    apply Hl. by right.
Qed.

Lemma consumers_first_cons h c l :
  consumers_first h (c :: l) ->
  consumers_first h l /\ forall t, t ∈ l -> c ∉ prev h t.
Proof.
  intros H. split.
  - intros i j a b Hi Hj Hab. specialize (H (S i) (S j) a b Hi Hj Hab). lia.
  - intros t Ht Hc. apply list_elem_of_lookup in Ht as [i Hi].
    specialize (H (S i) 0 t c Hi eq_refl Hc). lia.
Qed.

Lemma consumers_first_same_shape h h' l :
  same_shape h h' -> consumers_first h l -> consumers_first h' l.
Proof.
  intros HS H i j c t Hi Hj Ht. rewrite (same_shape_prev h h') in Ht by done.
  eauto.
Qed.

(** The chain rule as the loop computes it: after the closures of [l] have
    run, each gradient is its starting value plus, in the order of [l],
    every amount a consumer adds, each computed from the consumer's own
    final gradient. *)
Lemma run_list_accumulates l : forall h r,
  wf h -> consumers_first h l -> r < length h ->
  grad (run_list js l h !!! r) =
  fsum (grad (h !!! r)) (received js (run_list js l h) l r).
Proof.
  induction l as [|c l IH]; intros h r Hwf Hcf Hr; [done|].
  apply consumers_first_cons in Hcf as [Hcf Hc].
  pose proof (call_backward_same_shape c h) as HS1.
  pose proof (wf_same_shape _ _ HS1 Hwf) as Hwf1.
  change (run_list js (c :: l) h) with (run_list js l (call_backward js c h)).
  set (h1 := call_backward js c h) in *.
  pose proof (run_list_same_shape l h1) as HSf.
  rewrite IH; [|done|by eapply consumers_first_same_shape|by rewrite (proj1 HS1)].
  unfold received. simpl. rewrite fsum_app. f_equal.
  unfold h1 at 1. rewrite call_backward_grad by done. f_equal.
  unfold incr. f_equal. f_equal.
  rewrite (same_shape_backward h (run_list js l h1) c)
    by (by eapply same_shape_trans).
  symmetry. apply contributions_agree; [by eapply same_shape_trans|].
  intros o Ho. apply (wf_owner h c o Hwf) in Ho as ->.
  rewrite run_list_frame; [|done|].
  - f_equal. apply call_backward_frame; [done|].
    intros Hcc. apply (wf_prev_lt h c c Hwf) in Hcc. lia.
  - intros t Ht. rewrite (same_shape_prev h h1) by done. by apply Hc.
Qed.

Lemma walk_run_list topo : forall n h,
  n <= length topo ->
  walk js topo n h = run_list js (reverse (take n topo)) h.
Proof.
  induction n as [|i IH]; intros h Hn; [by rewrite take_0|].
  simpl walk. rewrite IH by lia.
  rewrite (take_S_r topo i (topo !!! i))
    by (apply list_lookup_lookup_total_lt; lia).
  by rewrite reverse_snoc.
Qed.

Lemma received_nil h l r :
  wf h -> (forall c, c ∈ l -> r ∉ prev h c) -> received js h l r = [].
Proof.
  intros Hwf. induction l as [|c l IH]; intros Hl; [done|].
  unfold received. simpl. rewrite incr_nil.
  - apply IH. intros c' Hc'. apply Hl. by right.
  - intros Ht. apply (Hl c); [left|]. by apply (wf_targets h c r Hwf).
Qed.

Lemma received_app h l1 l2 r :
  received js h (l1 ++ l2) r = received js h l1 r ++ received js h l2 r.
Proof. unfold received. by rewrite map_app, concat_app. Qed.

Lemma received_cons h c l r :
  received js h (c :: l) r =
  incr js (_backward (h !!! c)) h r ++ received js h l r.
Proof. reflexivity. Qed.

End BackwardPass.

Section BackwardResults.
Variable js : Builtins.
Implicit Types (h : list Value) (r root : nat) (l : list nat).

Lemma consumers_first_reverse h T :
  topo_sorted h T -> NoDup T -> consumers_first h (reverse T).
Proof.
  intros HT HND i j c t Hi Hj Ht.
  apply reverse_lookup_Some in Hi as [Hi Hil].
  apply reverse_lookup_Some in Hj as [Hj Hjl].
  destruct (HT _ _ Hi t Ht) as (k&Hk&Hkt).
  pose proof (NoDup_lookup _ _ _ _ HND Hj Hkt). lia.
Qed.

(** What a call of [backward] does on a well-formed store, given enough
    stack: the order [rest ++ [root]] it builds, the store it leaves, and
    the gradient of every object in it. *)
Lemma backward_result h stack root :
  wf h -> root < length h -> root < stack ->
  exists rest hf,
    backward js stack root h = Return tt hf /\
    hf = run_list js (root :: reverse rest) (set_grad root 1%float h) /\
    same_shape h hf /\
    NoDup (rest ++ [root]) /\ topo_sorted h (rest ++ [root]) /\
    (forall n, n ∈ rest ++ [root] <-> reachable h root n) /\
    grad (hf !!! root) = 1%float /\
    (forall r, r < length h -> r <> root ->
       grad (hf !!! r) =
       fsum (grad (h !!! r)) (received js hf (root :: reverse rest) r)).
Proof.
  intros Hwf Hroot Hstack.
  destruct (buildTopo_root h Hwf stack root Hstack) as (V&rest&E&HND&HT&HR).
  set (h0 := set_grad root 1%float h).
  set (l := root :: reverse rest).
  assert (same_shape h h0) as HS0 by apply same_shape_set_grad.
  assert (wf h0) as Hwf0 by (by eapply wf_same_shape).
  assert (consumers_first h0 l) as Hcf.
  { eapply consumers_first_same_shape; [done|]. unfold l.
    rewrite <- reverse_snoc. by apply consumers_first_reverse. }
  assert (same_shape h (run_list js l h0)) as HSf.
  { eapply same_shape_trans; [done|]. apply run_list_same_shape. }
  exists rest, (run_list js l h0). split; [|split; [done|split; [done|]]].
  - unfold backward. rewrite E. rewrite walk_run_list by done.
    rewrite firstn_all, reverse_snoc. done.
  - split; [done|]. split; [done|]. split; [done|].
    assert (forall r, r < length h ->
      grad (run_list js l h0 !!! r) =
      fsum (grad (h0 !!! r)) (received js (run_list js l h0) l r)) as Hacc.
    { intros r Hr. apply run_list_accumulates; [done|done|].
      by rewrite (proj1 HS0). }
    split.
    + rewrite Hacc by done. rewrite received_nil.
      * simpl. unfold h0. by rewrite grad_set_grad_eq.
      * by eapply wf_same_shape.
      * intros c Hc Hin. rewrite (same_shape_prev h) in Hin by done.
        assert (reachable h root c) as Hrc.
        { apply HR. unfold l in Hc. rewrite <- reverse_snoc in Hc.
          by apply elem_of_reverse. }
        apply (reachable_le h root c Hwf) in Hrc.
        apply (wf_prev_lt h c root Hwf) in Hin. lia.
    + intros r Hr Hne. rewrite Hacc by done. f_equal.
      unfold h0. by rewrite lookup_set_grad_ne.
Qed.

(** An object that no reachable object has as an operand keeps its
    gradient through [backward] (the root apart). *)
Lemma backward_untouched h root rest hf r :
  wf h ->
  hf = run_list js (root :: reverse rest) (set_grad root 1%float h) ->
  (forall n, n ∈ rest ++ [root] -> reachable h root n) ->
  r <> root -> (forall c, reachable h root c -> r ∉ prev h c) ->
  hf !!! r = h !!! r.
Proof.
  intros Hwf -> HR Hne Hr.
  assert (same_shape h (set_grad root 1%float h)) as HS0
    by apply same_shape_set_grad.
  rewrite run_list_frame.
  - by apply lookup_set_grad_ne.
  - by eapply wf_same_shape.
  - intros c Hc. rewrite (same_shape_prev h) by done. apply Hr, HR.
    rewrite <- reverse_snoc in Hc. by apply elem_of_reverse.
Qed.

End BackwardResults.

(** * Facts of binary64 arithmetic the engine relies on *)

Module Float64.



Lemma shr52 m :
  SpecFloat.iter_pos shr_1 52%positive
    (Build_shr_record (Z.pos (4503599627370496 * m)) false false)
  = Build_shr_record (Z.pos m) false false.
Proof. vm_compute. reflexivity. Qed.

Lemma shr51 m :
  SpecFloat.iter_pos shr_1 51%positive
    (Build_shr_record (Z.pos (4503599627370496 * m)) false false)
  = Build_shr_record (Z.pos m~0) false false.
Proof. vm_compute. reflexivity. Qed.

Lemma digits2_iter_xO m k :
  Z.pos (digits2_pos (Pos.iter xO m k)) = (Z.pos (digits2_pos m) + Z.pos k)%Z.
Proof.
  induction k using Pos.peano_ind.
  - cbn. lia.
  - rewrite Pos.iter_succ. cbn [digits2_pos]. lia.
Qed.

(** Doubling is exact (or overflows) either way: [x + x] and [2 * x] are
    the same binary64 number. *)
Lemma add_diag (x : float) : (x + x = 2 * x)%float.
Proof.
  apply Prim2SF_inj. rewrite add_spec, mul_spec.
  pose proof (Prim2SF_valid x) as V.
  change (Prim2SF 2) with (S754_finite false 4503599627370496 (-51)).
  destruct (Prim2SF x) as [s|s| |s m e];
    try (destruct s; reflexivity); try reflexivity.
  unfold SF64add, SF64mul, SFadd, SFmul.
  rewrite Z.min_id.
  unfold shl_align at 1 2. rewrite Z.sub_diag. cbn [fst xorb].
  assert (Hs : (cond_Zopp s (Z.pos m) + cond_Zopp s (Z.pos m))%Z
               = cond_Zopp s (Z.pos m~0)).
  { destruct s; unfold cond_Zopp.
    - change (- Z.pos m + - Z.pos m)%Z with (Z.neg (m + m)).
      rewrite Pos.add_diag. reflexivity.
    - change (Z.pos m + Z.pos m)%Z with (Z.pos (m + m)).
      rewrite Pos.add_diag. reflexivity. }
  rewrite Hs.
  assert (Hn : binary_normalize prec emax (cond_Zopp s (Z.pos m~0)) e false
               = binary_round prec emax s m~0 e).
  { destruct s; reflexivity. }
  rewrite Hn. clear Hs Hn.
  unfold valid_binary, bounded, canonical_mantissa in V.
  apply andb_prop in V. destruct V as [V1 _]. apply Z.eqb_eq in V1.
  assert (Hd : Z.pos (digits2_pos m~0) = (Z.pos (digits2_pos m) + 1)%Z).
  { cbn [digits2_pos]. lia. }
  assert (Hd2 : Zdigits2 (Z.pos (4503599627370496 * m))
                = (Z.pos (digits2_pos m) + 52)%Z).
  { change (Zdigits2 (Z.pos (4503599627370496 * m)))
      with (Z.pos (digits2_pos (Pos.iter xO m 52))).
    apply digits2_iter_xO. }
  set (d := Z.pos (digits2_pos m)) in *.
  assert (HE : fexp prec emax (d + 1 + e) = e
               \/ fexp prec emax (d + 1 + e) = (e + 1)%Z).
  { unfold fexp, emin, prec, emax in *. lia. }
  unfold binary_round. rewrite Hd.
  assert (Hshl : shl_align m~0 e (fexp prec emax (d + 1 + e))
                 = (m~0, e)%positive).
  { unfold shl_align. destruct HE as [-> | ->].
    - rewrite Z.sub_diag. reflexivity.
    - replace (e + 1 - e)%Z with 1%Z by lia. reflexivity. }
  rewrite Hshl. unfold binary_round_aux.
  assert (Hshr :
    shr_fexp prec emax (Z.pos m~0) e loc_Exact =
    shr_fexp prec emax (Z.pos (4503599627370496 * m)) (-51 + e) loc_Exact).
  { unfold shr_fexp. rewrite Hd2.
    change (Zdigits2 (Z.pos m~0)) with (Z.pos (digits2_pos m~0)). rewrite Hd.
    replace (d + 52 + (-51 + e))%Z with (d + 1 + e)%Z by lia.
    cbn [shr_record_of_loc].
    destruct HE as [-> | ->].
    - rewrite Z.sub_diag. replace (e - (-51 + e))%Z with 51%Z by lia.
      unfold shr. rewrite shr51. f_equal. lia.
    - replace (e + 1 - e)%Z with 1%Z by lia.
      replace (e + 1 - (-51 + e))%Z with 52%Z by lia.
      unfold shr. rewrite shr52. cbn [SpecFloat.iter_pos shr_1 orb].
      f_equal. lia. }
  rewrite Hshr. reflexivity.
Qed.

(** Adding the same amount twice to an accumulator that started at [0]. *)
Lemma zero_add_twice (c : float) : ((0 + c) + c = 2 * (0 + c))%float.
Proof.
  destruct (Prim2SF c) as [s|s| |s m e] eqn:E.
  - rewrite <- (SF2Prim_Prim2SF c), E. destruct s; vm_compute; reflexivity.
  - assert (0 + c = c)%float as ->; [|apply add_diag].
    apply Prim2SF_inj. rewrite add_spec, E. reflexivity.
  - assert (0 + c = c)%float as ->; [|apply add_diag].
    apply Prim2SF_inj. rewrite add_spec, E. reflexivity.
  - assert (0 + c = c)%float as ->; [|apply add_diag].
    apply Prim2SF_inj. rewrite add_spec, E. reflexivity.
Qed.

(** A product with [1] is the other factor. *)
Lemma mul_one_r (x : float) : (x * 1 = x)%float.
Proof.
  apply Prim2SF_inj. rewrite mul_spec.
  pose proof (Prim2SF_valid x) as V.
  change (Prim2SF 1) with (S754_finite false 4503599627370496 (-52)).
  destruct (Prim2SF x) as [s|s| |s m e];
    try (destruct s; reflexivity); try reflexivity.
  unfold SF64mul, SFmul. rewrite xorb_false_r.
  unfold valid_binary, bounded, canonical_mantissa in V.
  apply andb_prop in V. destruct V as [V1 V2].
  apply Z.eqb_eq in V1. apply Z.leb_le in V2.
  rewrite Pos.mul_comm.
  assert (Hd2 : Zdigits2 (Z.pos (4503599627370496 * m))
                = (Z.pos (digits2_pos m) + 52)%Z).
  { change (Zdigits2 (Z.pos (4503599627370496 * m)))
      with (Z.pos (digits2_pos (Pos.iter xO m 52))).
    apply digits2_iter_xO. }
  unfold binary_round_aux.
  assert (Hshr :
    shr_fexp prec emax (Z.pos (4503599627370496 * m)) (e + -52) loc_Exact
    = (Build_shr_record (Z.pos m) false false, e)).
  { unfold shr_fexp. rewrite Hd2.
    replace (Z.pos (digits2_pos m) + 52 + (e + -52))%Z
      with (Z.pos (digits2_pos m) + e)%Z by lia.
    rewrite V1. replace (e - (e + -52))%Z with 52%Z by lia.
    cbn [shr_record_of_loc]. unfold shr. rewrite shr52. f_equal. lia. }
  rewrite Hshr. cbn [shr_m loc_of_shr_record round_nearest_even].
  unfold shr_fexp. cbn [Zdigits2]. rewrite V1, Z.sub_diag.
  cbn [shr_record_of_loc shr shr_m].
  apply Z.leb_le in V2. rewrite V2. reflexivity.
Qed.

(** ** Rounding after one or two bits *)

Local Open Scope Z_scope.

Lemma digits2_bounds p :
  2 ^ (Z.pos (digits2_pos p) - 1) <= Z.pos p < 2 ^ Z.pos (digits2_pos p).
Proof.
  induction p as [p IH|p IH|]; cbn [digits2_pos].
  - rewrite Pos2Z.inj_succ.
    replace (Z.succ (Z.pos (digits2_pos p)) - 1)
      with (Z.succ (Z.pos (digits2_pos p) - 1)) by lia.
    rewrite !Z.pow_succ_r by lia. lia.
  - rewrite Pos2Z.inj_succ.
    replace (Z.succ (Z.pos (digits2_pos p)) - 1)
      with (Z.succ (Z.pos (digits2_pos p) - 1)) by lia.
    rewrite !Z.pow_succ_r by lia. lia.
  - simpl. lia.
Qed.

Lemma digits2_unique p n :
  2 ^ (n - 1) <= Z.pos p < 2 ^ n -> Z.pos (digits2_pos p) = n.
Proof.
  intros [Hlo Hhi]. pose proof (digits2_bounds p) as [Dlo Dhi].
  set (d := Z.pos (digits2_pos p)) in *.
  assert (0 < n).
  { destruct (Z.ltb_spec 0 n) as [|Hn]; [done|].
    assert (2 ^ n <= 1); [|lia].
    destruct (Z.eqb_spec n 0) as [->|]; [simpl; lia|].
    rewrite Z.pow_neg_r by lia. lia. }
  destruct (Z.lt_trichotomy d n) as [Hlt|[Heq|Hgt]]; [|done|].
  - assert (2 ^ d <= 2 ^ (n - 1)) by (apply Z.pow_le_mono_r; lia). lia.
  - assert (2 ^ n <= 2 ^ (d - 1)) by (apply Z.pow_le_mono_r; lia). lia.
Qed.

Lemma shr_1_nonneg m r s :
  0 <= m ->
  shr_1 (Build_shr_record m r s) = Build_shr_record (Z.div2 m) (Z.odd m) (r || s).
Proof. intros Hm. destruct m as [|[p|p|]|]; try reflexivity; lia. Qed.

Lemma iter_xO_value (p : positive) (k : positive) :
  Z.pos (Pos.iter xO p k) = Z.pos p * 2 ^ Z.pos k.
Proof.
  induction k using Pos.peano_ind.
  - simpl. lia.
  - rewrite Pos.iter_succ, Pos2Z.inj_succ, Z.pow_succ_r by lia.
    rewrite Pos2Z.inj_xO, IHk. lia.
Qed.

Lemma shl_align_value (p : positive) (e k : Z) :
  0 <= k -> Z.pos (fst (shl_align p (e + k) e)) = Z.pos p * 2 ^ k.
Proof.
  intros Hk. unfold shl_align.
  replace (e - (e + k)) with (- k) by lia.
  destruct k as [|k|k]; [simpl; lia| |lia].
  simpl Z.opp. cbn [fst]. apply iter_xO_value.
Qed.


Ltac parity_of M :=
  let H := fresh "Hodd" in
  pose proof (Zmod_odd M) as H; destruct (Z.odd M).

Ltac evenness_of M :=
  let H := fresh "Heven" in
  pose proof (Zmod_even M) as H; destruct (Z.even M).

Lemma rne_1_bounds M :
  9007199254740992 <= M < 18014398509481984 ->
  4503599627370496 <= rne M 1 <= 9007199254740992 /\
  (rne M 1 * 2 = M \/ rne M 1 * 2 = M + 1 \/ rne M 1 * 2 = M - 1).
Proof.
  intros HM. unfold rne. rewrite !Z.div2_div.
  parity_of M; [evenness_of (M / 2)|];
    Z.div_mod_to_equations; lia.
Qed.

Lemma rne_2_bounds M :
  18014398509481984 <= M < 36028797018963968 ->
  4503599627370496 <= rne M 2 <= 9007199254740992 /\
  - 2 <= rne M 2 * 4 - M <= 2.
Proof.
  intros HM. unfold rne. cbv zeta. rewrite !Z.div2_div.
  parity_of (M / 2); parity_of M; try evenness_of (M / 2 / 2);
    Z.div_mod_to_equations; lia.
Qed.

Lemma fexp_eq d e :
  fexp prec emax (d + e) = Z.max (d + e - 53) (-1074).
Proof. reflexivity. Qed.

Lemma digits_53 R :
  4503599627370496 <= R < 9007199254740992 -> Zdigits2 R = 53.
Proof.
  intros HR. destruct R as [|r|r]; try lia. simpl.
  apply digits2_unique. change (2 ^ (53 - 1)) with 4503599627370496.
  change (2 ^ 53) with 9007199254740992. lia.
Qed.

(** The last step of [binary_round_aux]: a rounded mantissa of 53 bits
    stays, one of 54 bits (a carry) is halved. *)
Lemma round_finish s R e :
  -1074 <= e -> 4503599627370496 <= R <= 9007199254740992 ->
  (let '(mrs, e') := shr_fexp prec emax R e loc_Exact in
   match shr_m mrs with
   | Z0 => S754_zero s
   | Zpos m => if e' <=? emax - prec then S754_finite s m e'
               else S754_infinity s
   | Zneg _ => S754_nan
   end) = finish s R e.
Proof.
  intros He HR. unfold finish.
  destruct (Z.eqb_spec R 9007199254740992) as [->|Hne].
  - unfold shr_fexp. change (Zdigits2 9007199254740992) with 54.
    rewrite fexp_eq. replace (Z.max (54 + e - 53) (-1074) - e) with 1 by lia.
    reflexivity.
  - unfold shr_fexp. rewrite digits_53, fexp_eq by lia.
    replace (Z.max (53 + e - 53) (-1074) - e) with 0 by lia.
    cbn [shr shr_record_of_loc shr_m].
    destruct R as [|r|r]; try lia. reflexivity.
Qed.

Lemma binary_round_small s p e :
  -1074 <= e -> Z.pos p < 36028797018963968 ->
  (4503599627370496 <= Z.pos p \/ e = -1074) ->
  binary_round prec emax s p e = round64 s (Z.pos p) e.
Proof.
  intros He Hhi Hlo. pose proof (digits2_bounds p) as [Dlo Dhi].
  unfold round64, sh_of.
  destruct (Z.ltb_spec (Z.pos p) 9007199254740992) as [H53|H53];
    [|destruct (Z.ltb_spec (Z.pos p) 18014398509481984) as [H54|H54]].
  - (* no bit is shifted out *)
    assert (Z.pos (digits2_pos p) <= 53) as Hd.
    { destruct (Z.leb_spec (Z.pos (digits2_pos p)) 53) as [|Hgt]; [done|].
      assert (2 ^ 53 <= 2 ^ (Z.pos (digits2_pos p) - 1))
        by (apply Z.pow_le_mono_r; lia).
      change (2 ^ 53) with 9007199254740992 in *. lia. }
    assert (fexp prec emax (Z.pos (digits2_pos p) + e) = e) as Hf.
    { rewrite fexp_eq. destruct Hlo as [Hlo| ->]; [|lia].
      rewrite (digits2_unique p 53); [lia|].
      change (2 ^ (53 - 1)) with 4503599627370496.
      change (2 ^ 53) with 9007199254740992. lia. }
    unfold binary_round. rewrite Hf. unfold shl_align. rewrite Z.sub_diag.
    unfold binary_round_aux, shr_fexp. cbn [Zdigits2].
    rewrite Hf, Z.sub_diag.
    cbn [shr shr_record_of_loc shr_m loc_of_shr_record round_nearest_even
         Zdigits2].
    rewrite Hf, Z.sub_diag. cbn [shr shr_record_of_loc shr_m rne].
    unfold finish. rewrite Z.add_0_r.
    destruct (Z.eqb_spec (Z.pos p) 9007199254740992) as [Heq|_]; [lia|].
    reflexivity.
  - (* one bit is shifted out *)
    assert (Z.pos (digits2_pos p) = 54) as Hd.
    { apply digits2_unique. change (2 ^ (54 - 1)) with 9007199254740992.
      change (2 ^ 54) with 18014398509481984. lia. }
    unfold binary_round. rewrite Hd, fexp_eq.
    replace (Z.max (54 + e - 53) (-1074)) with (e + 1) by lia.
    unfold shl_align. replace (e + 1 - e) with 1 by lia.
    unfold binary_round_aux, shr_fexp at 1. cbn [Zdigits2].
    rewrite Hd, fexp_eq.
    replace (Z.max (54 + e - 53) (-1074) - e) with 1 by lia.
    cbn [shr shr_record_of_loc SpecFloat.iter_pos].
    rewrite shr_1_nonneg by lia.
    cbn [shr_m loc_of_shr_record orb].
    match goal with
    | |- context [shr_fexp prec emax ?R _ loc_Exact] =>
        assert (R = rne (Z.pos p) 1) as ->
          by (unfold rne; destruct (Z.odd (Z.pos p)); reflexivity)
    end.
    apply round_finish; [lia|]. apply rne_1_bounds. lia.
  - (* two bits are shifted out *)
    assert (Z.pos (digits2_pos p) = 55) as Hd.
    { apply digits2_unique. change (2 ^ (55 - 1)) with 18014398509481984.
      change (2 ^ 55) with 36028797018963968. lia. }
    unfold binary_round. rewrite Hd, fexp_eq.
    replace (Z.max (55 + e - 53) (-1074)) with (e + 2) by lia.
    unfold shl_align. replace (e + 2 - e) with 2 by lia.
    unfold binary_round_aux, shr_fexp at 1. cbn [Zdigits2].
    rewrite Hd, fexp_eq.
    replace (Z.max (55 + e - 53) (-1074) - e) with 2 by lia.
    cbn [shr shr_record_of_loc SpecFloat.iter_pos].
    rewrite shr_1_nonneg by lia.
    rewrite shr_1_nonneg by (rewrite Z.div2_div; Z.div_mod_to_equations; lia).
    cbn [shr_m orb].
    match goal with
    | |- context [shr_fexp prec emax ?R _ loc_Exact] =>
        assert (R = rne (Z.pos p) 2) as ->
          by (unfold rne; cbv zeta;
              destruct (Z.odd (Z.div2 (Z.pos p))), (Z.odd (Z.pos p));
              reflexivity)
    end.
    apply round_finish; [lia|]. apply rne_2_bounds. lia.
Qed.


Lemma add_aligned s (m1 m2 : positive) e k :
  0 <= k -> -1074 <= e ->
  Z.pos m1 * 2 ^ k + Z.pos m2 < 36028797018963968 ->
  (4503599627370496 <= Z.pos m1 * 2 ^ k + Z.pos m2 \/ e = -1074) ->
  SF64add (S754_finite s m1 (e + k)) (S754_finite s m2 e)
  = round64 s (Z.pos m1 * 2 ^ k + Z.pos m2) e.
Proof.
  intros Hk He Hhi Hlo. unfold SF64add, SFadd.
  rewrite Z.min_r by lia.
  assert (shl_align m2 e e = (m2, e)) as ->.
  { unfold shl_align. by rewrite Z.sub_diag. }
  cbn [fst].
  assert (binary_normalize prec emax
            (cond_Zopp s (Z.pos (fst (shl_align m1 (e + k) e)))
             + cond_Zopp s (Z.pos m2)) e false
          = binary_round prec emax s (fst (shl_align m1 (e + k) e) + m2) e)
    as ->.
  { destruct s; reflexivity. }
  rewrite binary_round_small; rewrite ?Pos2Z.inj_add, ?shl_align_value;
    done.
Qed.

Lemma add_aligned_0 s (m1 m2 : positive) e :
  -1074 <= e ->
  Z.pos m1 + Z.pos m2 < 36028797018963968 ->
  (4503599627370496 <= Z.pos m1 + Z.pos m2 \/ e = -1074) ->
  SF64add (S754_finite s m1 e) (S754_finite s m2 e)
  = round64 s (Z.pos m1 + Z.pos m2) e.
Proof.
  intros He Hhi Hlo.
  pose proof (add_aligned s m1 m2 e 0) as H.
  rewrite Z.add_0_r, Z.pow_0_r, Z.mul_1_r in H. by apply H.
Qed.

Lemma round64_double s M e :
  4503599627370496 <= M < 9007199254740992 ->
  round64 s (M + M) e = finish s M (e + 1).
Proof.
  intros HM. unfold round64, sh_of.
  destruct (Z.ltb_spec (M + M) 9007199254740992); [lia|].
  destruct (Z.ltb_spec (M + M) 18014398509481984); [|lia].
  f_equal. unfold rne. rewrite Z.div2_div.
  parity_of (M + M); Z.div_mod_to_equations; lia.
Qed.

Lemma round64_small s M e :
  0 < M < 9007199254740992 -> e <= 971 ->
  round64 s M e = S754_finite s (Z.to_pos M) e.
Proof.
  intros HM He. unfold round64, sh_of.
  destruct (Z.ltb_spec M 9007199254740992); [|lia].
  rewrite Z.add_0_r. unfold rne, finish.
  destruct (Z.eqb_spec M 9007199254740992); [lia|].
  destruct (Z.leb_spec e 971); [done|lia].
Qed.

(** Four times a 53-bit mantissa, off by at most half a unit in the last
    place, rounds back to that mantissa; a tie only occurs next to an
    even one. *)
Lemma round64_quad s M d e :
  4503599627370496 <= M < 9007199254740992 ->
  -2 <= d <= 2 -> 18014398509481984 <= 4 * M + d ->
  (d = 2 \/ d = -2 -> M mod 2 = 0) ->
  round64 s (4 * M + d) e = finish s M (e + 2).
Proof.
  intros HM Hd Hlo Htie. unfold round64, sh_of.
  destruct (Z.ltb_spec (4 * M + d) 9007199254740992); [lia|].
  destruct (Z.ltb_spec (4 * M + d) 18014398509481984); [lia|].
  f_equal. unfold rne. cbv zeta. rewrite !Z.div2_div.
  parity_of ((4 * M + d) / 2); parity_of (4 * M + d);
    try evenness_of ((4 * M + d) / 2 / 2);
    Z.div_mod_to_equations; lia.
Qed.

Lemma round64_subnormal s M d e :
  9007199254740992 <= 4 * M + d -> 4 * M < 18014398509481984 ->
  -1 <= d <= 1 ->
  round64 s (4 * M + d) e = round64 s (4 * M) e.
Proof.
  intros HM HM' Hd. unfold round64, sh_of.
  destruct (Z.ltb_spec (4 * M + d) 9007199254740992); [lia|].
  destruct (Z.ltb_spec (4 * M + d) 18014398509481984); [|lia].
  destruct (Z.ltb_spec (4 * M) 9007199254740992).
  { assert (d = 1 /\ 4 * M + 1 = 9007199254740992) by lia. lia. }
  destruct (Z.ltb_spec (4 * M) 18014398509481984); [|lia].
  f_equal. unfold rne. rewrite !Z.div2_div.
  parity_of (4 * M + d); parity_of (4 * M);
    try evenness_of ((4 * M + d) / 2); try evenness_of (4 * M / 2);
    Z.div_mod_to_equations; lia.
Qed.


Lemma valid_finite (s : bool) (m : positive) (e : Z) :
  valid_binary (S754_finite s m e) = true ->
  -1074 <= e <= 971 /\ Z.pos m < 9007199254740992 /\
  (4503599627370496 <= Z.pos m \/ e = -1074).
Proof.
  unfold valid_binary, bounded, canonical_mantissa. intros V.
  apply andb_prop in V as [V1 V2].
  apply Z.eqb_eq in V1. apply Z.leb_le in V2.
  rewrite fexp_eq in V1. change (emax - prec) with 971 in V2.
  pose proof (digits2_bounds m) as [Dlo Dhi].
  set (d := Z.pos (digits2_pos m)) in *.
  assert (d <= 53) as Hd by lia.
  assert (2 ^ d <= 2 ^ 53) as Hp by (apply Z.pow_le_mono_r; lia).
  change (2 ^ 53) with 9007199254740992 in Hp.
  split; [lia|]. split; [lia|].
  destruct (Z.eqb_spec d 53) as [Heq|Hne]; [|right; lia].
  left. rewrite Heq in Dlo.
  change (2 ^ (53 - 1)) with 4503599627370496 in Dlo. done.
Qed.

Lemma finish_53 s (m : positive) e :
  Z.pos m < 9007199254740992 ->
  finish s (Z.pos m) e
  = if e <=? 971 then S754_finite s m e else S754_infinity s.
Proof.
  intros Hm. unfold finish.
  destruct (Z.eqb_spec (Z.pos m) 9007199254740992); [lia|done].
Qed.

Lemma add_infinity_l s m e :
  SF64add (S754_infinity s) (S754_finite s m e) = S754_infinity s.
Proof. reflexivity. Qed.

Lemma add_infinity_diag s :
  SF64add (S754_infinity s) (S754_infinity s) = S754_infinity s.
Proof. by destruct s. Qed.

(** Adding a finite number to itself four times, one addition after the
    other, gives the same binary64 number as doubling it twice. *)
Lemma SF_add_four s m e :
  valid_binary (S754_finite s m e) = true ->
  SF64add (SF64add (SF64add (S754_finite s m e) (S754_finite s m e))
                   (S754_finite s m e)) (S754_finite s m e)
  = SF64add (SF64add (S754_finite s m e) (S754_finite s m e))
            (SF64add (S754_finite s m e) (S754_finite s m e)).
Proof.
  intros V. apply valid_finite in V as (He & Hm & Hlo).
  rewrite (add_aligned_0 s m m e) by lia.
  destruct (Z.leb_spec 4503599627370496 (Z.pos m)) as [Hn|Hs].
  - (* a normal number *)
    rewrite round64_double, finish_53 by lia.
    destruct (Z.leb_spec (e + 1) 971) as [He1|He1].
    2:{ by rewrite !add_infinity_l, add_infinity_diag. }
    rewrite (add_aligned_0 s m m (e + 1)) by lia.
    rewrite round64_double, finish_53 by lia.
    rewrite (add_aligned s m m e 1) by (change (2 ^ 1) with 2; lia).
    change (2 ^ 1) with 2.
    unfold round64 at 1, sh_of.
    destruct (Z.ltb_spec (Z.pos m * 2 + Z.pos m) 9007199254740992); [lia|].
    destruct (Z.ltb_spec (Z.pos m * 2 + Z.pos m) 18014398509481984)
      as [H54|H54].
    + (* three times the mantissa has 54 bits *)
      destruct (rne_1_bounds (Z.pos m * 2 + Z.pos m)) as [HR Hd]; [lia|].
      set (R := rne (Z.pos m * 2 + Z.pos m) 1) in *.
      unfold finish at 1.
      destruct (Z.eqb_spec R 9007199254740992) as [Hc|Hc].
      * destruct (Z.leb_spec (e + 1 + 1) 971) as [He2|He2].
        -- replace (e + 1 + 1) with (e + 2) by lia.
           rewrite (add_aligned s _ m e 2) by (change (2 ^ 2) with 4; lia).
           change (2 ^ 2) with 4.
           replace (4503599627370496 * 4 + Z.pos m)
             with (4 * Z.pos m + (R * 2 - 3 * Z.pos m)) by lia.
           rewrite round64_quad by lia.
           rewrite finish_53 by lia.
           destruct (Z.leb_spec (e + 2) 971); [|lia].
           replace (e + 1 + 1) with (e + 2) by lia.
           destruct (Z.leb_spec (e + 2) 971); [done|lia].
        -- rewrite add_infinity_l.
           destruct (Z.leb_spec (e + 1 + 1) 971); [lia|done].
      * destruct (Z.leb_spec (e + 1) 971) as [_|]; [|lia].
        rewrite (add_aligned s _ m e 1)
          by (change (2 ^ 1) with 2; rewrite ?Z2Pos.id by lia; lia).
        change (2 ^ 1) with 2. rewrite Z2Pos.id by lia.
        replace (R * 2 + Z.pos m)
          with (4 * Z.pos m + (R * 2 - 3 * Z.pos m)) by lia.
        rewrite round64_quad by lia.
        rewrite finish_53 by lia.
        by replace (e + 1 + 1) with (e + 2) by lia.
    + (* three times the mantissa has 55 bits *)
      destruct (rne_2_bounds (Z.pos m * 2 + Z.pos m)) as [HR Hd]; [lia|].
      set (R := rne (Z.pos m * 2 + Z.pos m) 2) in *.
      unfold finish at 1.
      destruct (Z.eqb_spec R 9007199254740992) as [Hc|Hc]; [lia|].
      destruct (Z.leb_spec (e + 2) 971) as [He2|He2].
      * rewrite (add_aligned s _ m e 2)
          by (change (2 ^ 2) with 4; rewrite ?Z2Pos.id by lia; lia).
        change (2 ^ 2) with 4. rewrite Z2Pos.id by lia.
        replace (R * 4 + Z.pos m)
          with (4 * Z.pos m + (R * 4 - 3 * Z.pos m)) by lia.
        rewrite round64_quad; [|lia|lia|lia|].
        2:{ intros Ht. Z.div_mod_to_equations. lia. }
        rewrite finish_53 by lia.
        by replace (e + 1 + 1) with (e + 2) by lia.
      * rewrite add_infinity_l.
        destruct (Z.leb_spec (e + 1 + 1) 971); [lia|done].
  - (* a subnormal number *)
    assert (e = -1074) as -> by lia.
    rewrite round64_small by lia.
    set (m2 := Z.to_pos (Z.pos m + Z.pos m)).
    assert (Z.pos m2 = Z.pos m + Z.pos m) as Hm2 by (apply Z2Pos.id; lia).
    rewrite (add_aligned_0 s m2 m2 (-1074)) by lia.
    rewrite (add_aligned_0 s m2 m (-1074)) by lia.
    rewrite !Hm2.
    unfold round64 at 1, sh_of.
    destruct (Z.ltb_spec (Z.pos m + Z.pos m + Z.pos m) 9007199254740992)
      as [H53|H53].
    + unfold rne, finish.
      destruct (Z.eqb_spec (Z.pos m + Z.pos m + Z.pos m) 9007199254740992);
        [lia|].
      rewrite Z.add_0_r. change (-1074 <=? 971) with true. cbv iota.
      rewrite (add_aligned_0 s _ m (-1074)) by (rewrite ?Z2Pos.id by lia; lia).
      rewrite Z2Pos.id by lia. f_equal. lia.
    + destruct (Z.ltb_spec (Z.pos m + Z.pos m + Z.pos m) 18014398509481984);
        [|lia].
      destruct (rne_1_bounds (Z.pos m + Z.pos m + Z.pos m)) as [HR Hd];
        [lia|].
      set (R := rne (Z.pos m + Z.pos m + Z.pos m) 1) in *.
      unfold finish.
      destruct (Z.eqb_spec R 9007199254740992) as [Hc|Hc]; [lia|].
      change (-1074 + 1 <=? 971) with true. cbv iota.
      rewrite (add_aligned s _ m (-1074) 1)
        by (change (2 ^ 1) with 2; rewrite ?Z2Pos.id by lia; lia).
      change (2 ^ 1) with 2. rewrite Z2Pos.id by lia.
      replace (R * 2 + Z.pos m)
        with (4 * Z.pos m + (R * 2 - 3 * Z.pos m)) by lia.
      rewrite round64_subnormal by lia. f_equal. lia.
Qed.

(** Four additions of the same amount to an accumulator that started at
    [0] leave twice what two of them leave. *)
Lemma add_four (c : float) :
  ((((0 + c) + c) + c) + c = 2 * ((0 + c) + c))%float.
Proof.
  destruct (Prim2SF c) as [s|s| |s m e] eqn:E.
  - rewrite <- (SF2Prim_Prim2SF c), E. destruct s; vm_compute; reflexivity.
  - rewrite <- (SF2Prim_Prim2SF c), E. destruct s; vm_compute; reflexivity.
  - rewrite <- (SF2Prim_Prim2SF c), E. vm_compute. reflexivity.
  - assert (0 + c = c)%float as ->.
    { apply Prim2SF_inj. rewrite add_spec, E. reflexivity. }
    rewrite <- add_diag. apply Prim2SF_inj. rewrite !add_spec, E.
    apply SF_add_four. rewrite <- E. apply Prim2SF_valid.
Qed.

End Float64.

(** * Stores that grow *)

Section Growth.
Variable js : Builtins.
Implicit Types (h : list Value) (r v c n : nat) (l : list nat).

Lemma wf_snoc h (v : Value) :
  wf h -> node_ok (length h) v -> wf (h ++ [v]).
Proof.
  intros Hwf Hv. apply wf_intro. intros i w Hi.
  destruct (decide (i < length h)) as [Hlt|Hge].
  - rewrite lookup_app_l in Hi by done. by eapply wf_lookup.
  - pose proof (lookup_lt_Some _ _ _ Hi) as Hlen.
    rewrite length_app in Hlen. simpl in Hlen.
    assert (i = length h) as -> by lia.
    rewrite lookup_app_r, Nat.sub_diag in Hi by lia. by injection Hi as <-.
Qed.

Lemma wf_prefix h (ext : list Value) : wf (h ++ ext) -> wf h.
Proof.
  intros Hwf. apply wf_intro. intros i v Hi. eapply wf_lookup; [done|].
  by apply lookup_app_l_Some.
Qed.

Lemma node_ok_leaf n d lbl :
  node_ok n {| data := d; grad := 0%float; _backward := Noop; _prev := [];
               _op := EmptyString; label := lbl |}.
Proof. repeat split; simpl; constructor. Qed.

Lemma node_ok_unary n d (c : closure) op this :
  this < n -> targets c = [this] -> owner c = Some n ->
  node_ok n (result_node d c [this] op).
Proof.
  intros Hlt Ht Ho. unfold node_ok, result_node. simpl. rewrite Ht, Ho.
  split; [by repeat constructor|]. split; [apply NoDup_singleton|].
  split; [|done]. repeat constructor.
Qed.

Lemma node_ok_binary n d (c : closure) op this other :
  this < n -> other < n -> targets c = [this; other] -> owner c = Some n ->
  node_ok n (result_node d c [this; other] op).
Proof.
  intros Hlt Hlt' Ht Ho. unfold node_ok, result_node. simpl.
  rewrite Ht, Ho, JSSet_from_pair. destruct (decide (this = other)) as [->|Hne].
  - split; [by repeat constructor|]. split; [apply NoDup_singleton|].
    split; [|done]. repeat constructor.
  - split; [by repeat constructor|]. split.
    + apply NoDup_cons. split; [|apply NoDup_singleton].
      by intros ->%list_elem_of_singleton.
    + split; [|done]. repeat constructor.
Qed.

Lemma prev_app_old h (ext : list Value) r :
  r < length h -> prev (h ++ ext) r = prev h r.
Proof. intros. unfold prev. by rewrite lookup_total_app_l. Qed.

Lemma reachable_app_old h (ext : list Value) r n :
  wf h -> r < length h -> reachable (h ++ ext) r n <-> reachable h r n.
Proof.
  intros Hwf Hr. split.
  - intros H. induction H as [|r c n Hc _ IH]; [constructor|].
    rewrite prev_app_old in Hc by done.
    pose proof (wf_prev_lt h r c Hwf Hc).
    econstructor; [done|]. apply IH. lia.
  - intros H. induction H as [|r c n Hc _ IH]; [constructor|].
    pose proof (wf_prev_lt h r c Hwf Hc).
    econstructor; [by rewrite prev_app_old|]. apply IH. lia.
Qed.

(** ** Who adds to a gradient *)

Lemma received_single h l c r :
  wf h -> NoDup l -> c ∈ l ->
  (forall c', c' ∈ l -> c' <> c -> r ∉ prev h c') ->
  received js h l r = incr js (_backward (h !!! c)) h r.
Proof.
  intros Hwf HND Hc Hl. apply list_elem_of_split in Hc as (l1&l2&->).
  apply NoDup_app in HND as (_&Hd&HND2). apply NoDup_cons in HND2 as [Hc2 _].
  rewrite received_app, received_cons.
  rewrite (received_nil js h l1), (received_nil js h l2), app_nil_r; try done.
  - intros c' Hc'. apply Hl; [|by intros ->].
    apply elem_of_app. right. by right.
  - intros c' Hc'. apply Hl; [apply elem_of_app; by left|].
    intros ->. apply (Hd c Hc'). left.
Qed.



Lemma length_incr (c : closure) h n : length (incr js c h n) = slots c n.
Proof.
  unfold incr, slots. rewrite length_fmap.
  destruct c as [|t o out|t o out|t p out|t out|t x out|t out]; simpl;
    rewrite ?filter_cons; simpl; repeat case_decide; done.
Qed.


Lemma slots_le_2 (c : closure) n : slots c n <= 2.
Proof.
  unfold slots.
  destruct c as [|t o out|t o out|t p out|t out|t x out|t out]; simpl;
    rewrite ?filter_cons; simpl; repeat case_decide; simpl; lia.
Qed.

(** A closure assigns twice to the same object only when that object is
    both operands, and then it adds the same amount twice. *)
Lemma incr_double (c : closure) h n :
  slots c n = 2 -> exists g, incr js c h n = [g; g].
Proof.
  unfold slots, incr.
  destruct c as [|t o out|t o out|t p out|t out|t x out|t out]; simpl;
    rewrite ?filter_cons; simpl; repeat case_decide; simpl; try done;
    intros _; subst; by eexists.
Qed.

End Growth.

(** * Example stores *)

Lemma wf_complex_store : wf complex_store.
Proof. apply (bool_decide_unpack _). vm_compute. exact I. Qed.

(** * The specification, claim by claim *)

Section Claims.
Variable js : Builtins.
Implicit Types (h : list Value) (r root n : nat).

(** C1: [Examples.complex] builds L = (a*b + c)*f from a = 2, b = -3,
    c = 10, f = -2; L.data is -8, and after [L.backward()] the gradients
    are f: 4, a: 6, b: -4, c: -2 (L itself is seeded with 1).  Any stack
    of at least seven frames is enough. *)
Theorem Examples_complex_gradients (k : nat) :
  exists a b c e d f L h hf,
    Examples_complex [] = Return (a, b, c, e, d, f, L) h /\
    data (h !!! a) = 2%float /\ data (h !!! b) = (-3)%float /\
    data (h !!! c) = 10%float /\ data (h !!! f) = (-2)%float /\
    data (h !!! L) = (-8)%float /\
    backward js (7 + k) L h = Return tt hf /\
    grad (hf !!! L) = 1%float /\
    grad (hf !!! f) = 4%float /\ grad (hf !!! a) = 6%float /\
    grad (hf !!! b) = (-4)%float /\ grad (hf !!! c) = (-2)%float.
Proof.
  do 9 eexists. split; [reflexivity|].
  do 5 (split; [vm_compute; reflexivity|]).
  split; [reflexivity|].
  repeat split; vm_compute; reflexivity.
Qed.

(** C5: [pow] with an exponent that is not a number throws at once, the
    store untouched; with a number [p] it returns a new object whose data
    is [Math.pow(this.data, p)]. *)
Theorem pow_exponent_check this (other : jsval) h :
  match other with
  | JNumber p =>
      exists v, pow js this other h = Return (length h) (h ++ [v]) /\
                data v = Math_pow js (data (h !!! this)) p
  | JObject _ | JString _ | JUndefined =>
      pow js this other h =
      Throw (Error "only supporting number powers for now") h
  end.
Proof.
  destruct other; try reflexivity.
  rewrite pow_JNumber. eexists. split; reflexivity.
Qed.

(** C7: every operation leaves all objects of the store as they are
    (data, grad, _prev, _op and the rest) and returns an object allocated
    by the call. *)
Theorem operations_pure this (other : operand) (p : float) h :
  allocates_only h (add this other h) /\
  allocates_only h (mul this other h) /\
  allocates_only h (pow js this (JNumber p) h) /\
  allocates_only h (relu this h) /\
  allocates_only h (tanh js this h) /\
  allocates_only h (exp js this h) /\
  allocates_only h (neg this h) /\
  allocates_only h (sub this other h) /\
  allocates_only h (div js this other h).
Proof.
  repeat split.
  - destruct other; rewrite ?add_Num, add_Node; simpl;
      eexists; rewrite <- ?(assoc_L (++));
      (split; [reflexivity|rewrite !length_app; simpl; lia]).
  - destruct other; rewrite ?mul_Num, mul_Node; simpl;
      eexists; rewrite <- ?(assoc_L (++));
      (split; [reflexivity|rewrite !length_app; simpl; lia]).
  - rewrite pow_JNumber. simpl. eexists.
    split; [reflexivity|rewrite !length_app; simpl; lia].
  - rewrite relu_eq. simpl. eexists.
    split; [reflexivity|rewrite !length_app; simpl; lia].
  - rewrite tanh_eq. simpl. eexists.
    split; [reflexivity|rewrite !length_app; simpl; lia].
  - rewrite exp_eq. simpl. eexists.
    split; [reflexivity|rewrite !length_app; simpl; lia].
  - unfold neg. rewrite mul_Num, mul_Node. simpl. eexists.
    rewrite <- ?(assoc_L (++)).
    split; [reflexivity|rewrite !length_app; simpl; lia].
  - unfold sub, neg, bind. destruct other.
    + rewrite mul_Num, mul_Node, add_Node. simpl. eexists.
      rewrite <- ?(assoc_L (++)).
      split; [reflexivity|rewrite !length_app; simpl; lia].
    + unfold new_Value at 1. rewrite mul_Num, mul_Node, add_Node. simpl.
      eexists. rewrite <- ?(assoc_L (++)).
      split; [reflexivity|rewrite !length_app; simpl; lia].
  - unfold div, bind. destruct other.
    + rewrite pow_JNumber, mul_Node. simpl. eexists.
      rewrite <- ?(assoc_L (++)).
      split; [reflexivity|rewrite !length_app; simpl; lia].
    + unfold new_Value at 1. rewrite pow_JNumber, mul_Node. simpl.
      eexists. rewrite <- ?(assoc_L (++)).
      split; [reflexivity|rewrite !length_app; simpl; lia].
Qed.

Lemma topo_sorted_operands_first h topo :
  topo_sorted h topo -> NoDup topo -> operands_first h topo.
Proof.
  intros HT HND.
  assert (forall n m, reachable h n m -> forall i, topo !! i = Some n ->
            exists j, j <= i /\ topo !! j = Some m /\ (n <> m -> j < i)) as Hpos.
  { intros n m Hr. induction Hr as [r|r c n Hc _ IH]; intros i Hi.
    - exists i. split; [lia|]. split; [done|]. by intros [].
    - destruct (HT i r Hi c Hc) as (k&Hk&Hkc).
      destruct (IH k Hkc) as (j&Hj&Hjn&_). exists j.
      split; [lia|]. split; [done|]. intros _. lia. }
  intros i j n m Hi Hj Hne Hr.
  destruct (Hpos n m Hr i Hi) as (j'&_&Hj'&Hlt).
  rewrite (NoDup_lookup _ _ _ _ HND Hj Hj'). by apply Hlt.
Qed.

(** C2 (as amended): the order [buildTopo] computes lists exactly the
    objects reachable from the root, each once, every object after all the
    objects it depends on; the loop of [backward] then calls the closures
    in the reverse of that order. *)
Theorem backward_topological_order h stack root :
  wf h -> root < stack ->
  exists visited topo,
    buildTopo stack h root ([], []) = Some (visited, topo) /\
    NoDup topo /\ (forall n, n ∈ topo <-> reachable h root n) /\
    operands_first h topo /\
    backward js stack root h =
      Return tt (run_list js (reverse topo) (set_grad root 1%float h)).
Proof.
  intros Hwf Hstack.
  destruct (buildTopo_root h Hwf stack root Hstack) as (V&rest&E&HND&HT&HR).
  exists V, (rest ++ [root]). split; [done|]. split; [done|]. split; [done|].
  split; [by apply topo_sorted_operands_first|].
  unfold backward. rewrite E, walk_run_list by done. by rewrite firstn_all.
Qed.

(** C8: on a well-formed store, with a stack deeper than the root is old,
    [getNodes] returns: it lists each reachable object once and each
    operand-to-consumer edge among them once, and leaves the store as it
    found it. *)
Theorem getNodes_reachable h stack root :
  wf h -> root < stack ->
  exists nodes edges,
    getNodes stack root h = Return (nodes, edges) h /\
    NoDup nodes /\ (forall n, n ∈ nodes <-> reachable h root n) /\
    NoDup edges /\
    (forall c n, (c, n) ∈ edges <-> reachable h root n /\ c ∈ prev h n).
Proof.
  intros Hwf Hstack.
  destruct (build_root h Hwf stack root Hstack) as (N&E&Eq&HN&HE&HNr&HEr).
  exists N, E. unfold getNodes. rewrite Eq. done.
Qed.

Lemma zero_all_same_shape nodes h : same_shape h (zero_all nodes h).
Proof.
  revert h. induction nodes as [|n nodes IH]; intros h; [apply same_shape_refl|].
  eapply same_shape_trans; [apply (same_shape_set_grad n 0%float)|apply IH].
Qed.

Lemma zero_all_other nodes h n : n ∉ nodes -> zero_all nodes h !!! n = h !!! n.
Proof.
  revert h. induction nodes as [|m nodes IH]; intros h Hn; [done|].
  apply not_elem_of_cons in Hn as [Hne Hn]. simpl.
  change (fold_left _ nodes ?x) with (zero_all nodes x).
  rewrite IH by done. by apply lookup_set_grad_ne.
Qed.

Lemma zero_all_grad nodes h n :
  n ∈ nodes -> n < length h -> grad (zero_all nodes h !!! n) = 0%float.
Proof.
  revert h. induction nodes as [|m nodes IH]; intros h Hn Hlt.
  - by apply elem_of_nil in Hn.
  - simpl. change (fold_left _ nodes ?x) with (zero_all nodes x).
    destruct (decide (n ∈ nodes)) as [Hin|Hnin].
    + apply IH; [done|]. by rewrite length_set_grad.
    + apply elem_of_cons in Hn as [->|Hn]; [|done].
      rewrite zero_all_other by done. by apply grad_set_grad_eq.
Qed.

(** C9: [zeroGrad] sets the gradient of the object and of everything
    reachable from it to 0; no object's data, _prev, _op, closure or label
    changes, and objects that are not reachable keep their gradient. *)
Theorem zeroGrad_reachable h stack root :
  wf h -> root < length h -> root < stack ->
  exists h',
    zeroGrad stack root h = Return tt h' /\
    (forall n, reachable h root n -> grad (h' !!! n) = 0%float) /\
    (forall n, data (h' !!! n) = data (h !!! n) /\
               _prev (h' !!! n) = _prev (h !!! n) /\
               _op (h' !!! n) = _op (h !!! n) /\
               _backward (h' !!! n) = _backward (h !!! n) /\
               label (h' !!! n) = label (h !!! n)) /\
    (forall n, ~ reachable h root n -> h' !!! n = h !!! n).
Proof.
  intros Hwf Hroot Hstack.
  destruct (build_root h Hwf stack root Hstack) as (N&E&Eq&HN&HE&HNr&HEr).
  exists (zero_all N h). split; [|split; [|split]].
  - unfold zeroGrad, bind, getNodes. rewrite Eq. done.
  - intros n Hn. apply zero_all_grad; [by apply HNr|].
    by eapply reachable_in_range.
  - intros n. destruct (zero_all_same_shape N h) as [_ S].
    destruct (shape_inv _ _ (S n)) as (?&?&?&?&?). done.
  - intros n Hn. apply zero_all_other. by rewrite HNr.
Qed.

(** ** [backward] from an object that was just created *)

Lemma prev_new h (v : Value) : prev (h ++ [v]) (length h) = _prev v.
Proof. unfold prev. by rewrite lookup_total_new. Qed.

Lemma node_ok_prev_lt i (v : Value) c : node_ok i v -> c ∈ _prev v -> c < i.
Proof. intros (H&_) Hc. rewrite Forall_forall in H. by apply H. Qed.

Lemma backward_top h (v : Value) stack :
  wf h -> node_ok (length h) v -> length h < stack ->
  exists rest hf,
    backward js stack (length h) (h ++ [v]) = Return tt hf /\
    same_shape (h ++ [v]) hf /\ wf hf /\ NoDup rest /\
    (forall n, n ∈ rest <-> exists c, c ∈ _prev v /\ reachable h c n) /\
    grad (hf !!! length h) = 1%float /\
    (forall r, r < length h ->
       grad (hf !!! r) =
       fsum (grad (h !!! r))
            (incr js (_backward v) hf r ++ received js hf (reverse rest) r)).
Proof.
  intros Hwf Hv Hstack.
  assert (wf (h ++ [v])) as Hwf' by (by apply wf_snoc).
  destruct (backward_result js (h ++ [v]) stack (length h) Hwf')
    as (rest&hf&Hb&Hhf&HS&HND&HT&HR&Hg1&Hgr);
    [rewrite length_app; simpl; lia|done|].
  apply NoDup_app in HND as (HNDr&Hdisj&_).
  assert (length h ∉ rest) as Hout.
  { intros Hin. apply (Hdisj _ Hin). by apply list_elem_of_singleton. }
  exists rest, hf. split; [done|]. split; [done|].
  split; [by eapply wf_same_shape|]. split; [done|]. split; [|split; [done|]].
  - intros n. split.
    + intros Hn.
      assert (reachable (h ++ [v]) (length h) n) as Hr
        by (apply HR, elem_of_app; by left).
      apply reachable_inv in Hr as [->|(c&Hc&Hr)]; [done|].
      rewrite prev_new in Hc. exists c. split; [done|].
      apply (reachable_app_old h [v] c n Hwf); [|done].
      by apply (node_ok_prev_lt _ v).
    + intros (c&Hc&Hr).
      pose proof (node_ok_prev_lt _ v c Hv Hc) as Hlt.
      assert (n ∈ rest ++ [length h]) as Hin.
      { apply HR. econstructor; [by rewrite prev_new|].
        by apply (reachable_app_old h [v] c n Hwf). }
      apply elem_of_app in Hin as [Hin|Hin]; [done|].
      apply list_elem_of_singleton in Hin as ->.
      apply (reachable_le h c _ Hwf) in Hr. lia.
  - intros r Hr. rewrite Hgr; [|rewrite length_app; simpl; lia|lia].
    rewrite lookup_total_old by done. rewrite received_cons.
    rewrite (same_shape_backward (h ++ [v]) hf) by done.
    by rewrite lookup_total_new.
Qed.

(** When no object under the new one has [r] as an operand, only the new
    object's closure adds to the gradient of [r]. *)
Lemma backward_top_direct h (v : Value) stack :
  wf h -> node_ok (length h) v -> length h < stack ->
  exists hf,
    backward js stack (length h) (h ++ [v]) = Return tt hf /\
    same_shape (h ++ [v]) hf /\
    grad (hf !!! length h) = 1%float /\
    (forall r, r < length h ->
       (forall c n, c ∈ _prev v -> reachable h c n -> r ∉ prev h n) ->
       grad (hf !!! r) = fsum (grad (h !!! r)) (incr js (_backward v) hf r)).
Proof.
  intros Hwf Hv Hstack.
  destruct (backward_top h v stack Hwf Hv Hstack)
    as (rest&hf&Hb&HS&Hwff&HND&Hrest&Hg1&Hgr).
  exists hf. split; [done|]. split; [done|]. split; [done|].
  intros r Hr Hfree. rewrite Hgr by done.
  rewrite (received_nil js hf), app_nil_r; [done|done|].
  intros c Hc. apply elem_of_reverse, Hrest in Hc as (c0&Hc0&Hreach).
  rewrite (same_shape_prev (h ++ [v]) hf) by done.
  rewrite prev_app_old; [by eapply Hfree|].
  pose proof (node_ok_prev_lt _ v c0 Hv Hc0).
  apply (reachable_le h c0 c Hwf) in Hreach. lia.
Qed.



Lemma incr_AddBack_same a out h :
  incr js (AddBack a a out) h a =
  [(1 * grad (h !!! out))%float; (1 * grad (h !!! out))%float].
Proof.
  unfold incr. simpl. rewrite !filter_cons. simpl.
  rewrite !decide_True by done. done.
Qed.


(** C10 (as amended): [a.add(a)] returns an object whose [_prev] holds
    [a] once and whose data is [2 * a.data]; [backward] on it adds 1 to
    [a.grad] for each of the two operand slots, so it leaves
    [(g + 1) + 1] for the gradient [g] that [a] had, which is 2 when [a]
    had gradient 0. *)
Theorem add_self h a stack :
  wf h -> a < length h -> length h < stack ->
  exists out h' hf,
    add a (Node a) h = Return out h' /\
    _prev (h' !!! out) = [a] /\
    data (h' !!! out) = (2 * data (h !!! a))%float /\
    backward js stack out h' = Return tt hf /\
    grad (hf !!! a) = (grad (h !!! a) + 1 + 1)%float /\
    (grad (h !!! a) = 0%float -> grad (hf !!! a) = 2%float).
Proof.
  intros Hwf Ha Hstack.
  rewrite add_Node.
  set (v := result_node _ _ _ _).
  assert (node_ok (length h) v) as Hv by (by apply node_ok_binary).
  assert (_prev v = [a]) as Hprev.
  { unfold v, result_node. simpl. rewrite JSSet_from_pair.
    by rewrite decide_True. }
  destruct (backward_top_direct h v stack Hwf Hv Hstack)
    as (hf&Hbw&HS&Hg1&Hgr).
  exists (length h), (h ++ [v]), hf. split; [done|].
  rewrite lookup_total_new. split; [done|].
  split; [unfold v; simpl; apply Float64.add_diag|]. split; [done|].
  assert (grad (hf !!! a) = (grad (h !!! a) + 1 + 1)%float) as Hsum.
  { rewrite Hgr; [|done|].
    - unfold v at 1. simpl _backward. rewrite incr_AddBack_same.
      rewrite Hg1. reflexivity.
    - intros c n Hc Hr Hin. rewrite Hprev in Hc.
      apply list_elem_of_singleton in Hc as ->.
      apply (reachable_le h _ _ Hwf) in Hr.
      apply (wf_prev_lt h _ _ Hwf) in Hin. lia. }
  split; [done|]. intros Hga. rewrite Hsum, Hga. reflexivity.
Qed.

(** ** An operand whose only consumer is the root *)

Lemma NoDup_reverse (l : list nat) : NoDup l -> NoDup (reverse l).
Proof. intros H. by rewrite reverse_Permutation. Qed.

Lemma backward_single_consumer h stack root :
  wf h -> root < length h -> root < stack ->
  exists h1,
    backward js stack root h = Return tt h1 /\
    same_shape h h1 /\ grad (h1 !!! root) = 1%float /\
    (forall x, x < length h -> x <> root ->
       (forall c, reachable h root c -> x ∈ prev h c -> c = root) ->
       grad (h1 !!! x) =
       fsum (grad (h !!! x)) (incr js (_backward (h !!! root)) h1 x)).
Proof.
  intros Hwf Hroot Hstack.
  destruct (backward_result js h stack root Hwf Hroot Hstack)
    as (rest&h1&Hb&_&HS&HND&_&HR&Hg1&Hgr).
  exists h1. split; [done|]. split; [done|]. split; [done|].
  intros x Hx Hne Hcons. rewrite Hgr by done. f_equal.
  rewrite <- (same_shape_backward h h1 root HS).
  assert (forall c, c ∈ root :: reverse rest -> reachable h root c) as Hin.
  { intros c Hc. apply HR. rewrite <- reverse_snoc in Hc.
    by apply elem_of_reverse. }
  apply received_single.
  - by eapply wf_same_shape.
  - rewrite <- reverse_snoc. by apply NoDup_reverse.
  - left.
  - intros c Hc Hcr Hxc. rewrite (same_shape_prev h h1) in Hxc by done.
    apply Hcr. apply Hcons; [|done]. by apply Hin.
Qed.

(** C3 (as amended): a second [backward] without zeroing in between seeds
    the root with 1 again, so the root's gradient stays 1; an operand of
    the root with gradient 0 at the start that no other reachable object
    takes ends with twice its gradient after one run, whether it is one
    operand of the root or both. *)
Theorem backward_twice h stack root :
  wf h -> root < length h -> root < stack ->
  exists h1 h2,
    backward js stack root h = Return tt h1 /\
    backward js stack root h1 = Return tt h2 /\
    grad (h1 !!! root) = 1%float /\ grad (h2 !!! root) = 1%float /\
    (forall n, n ∈ prev h root -> grad (h !!! n) = 0%float ->
       (forall c, reachable h root c -> n ∈ prev h c -> c = root) ->
       grad (h2 !!! n) = (2 * grad (h1 !!! n))%float).
Proof.
  intros Hwf Hroot Hstack.
  destruct (backward_single_consumer h stack root Hwf Hroot Hstack)
    as (h1&Hb1&HS1&Hg1&Hx1).
  assert (wf h1) as Hwf1 by (by eapply wf_same_shape).
  destruct (backward_single_consumer h1 stack root Hwf1) as (h2&Hb2&HS2&Hg2&Hx2);
    [by rewrite (proj1 HS1)|done|].
  exists h1, h2. split; [done|]. split; [done|]. split; [done|].
  split; [done|]. intros n Hn Hgn Hcons.
  pose proof (wf_prev_lt h root n Hwf Hn) as Hlt.
  rewrite Hx2; [|rewrite (proj1 HS1); lia|lia|].
  - rewrite Hx1 by (done || lia).
    rewrite (same_shape_backward h h1 root HS1).
    assert (incr js (_backward (h !!! root)) h2 n =
            incr js (_backward (h !!! root)) h1 n) as ->.
    { unfold incr. f_equal. f_equal. apply contributions_agree; [done|].
      intros o Ho. apply (wf_owner h root o Hwf) in Ho as ->. congruence. }
    pose proof (length_incr js (_backward (h !!! root)) h1 n) as Hlen.
    pose proof (slots_le_2 (_backward (h !!! root)) n) as Hle.
    pose proof (incr_double js (_backward (h !!! root)) h1 n) as Htwo.
    rewrite Hgn.
    destruct (incr js (_backward (h !!! root)) h1 n) as [|g [|g' [|g'' l]]].
    + reflexivity.
    + simpl. apply Float64.zero_add_twice.
    + destruct Htwo as [g0 Hg0]; [by rewrite <- Hlen|].
      injection Hg0 as -> ->. simpl. apply Float64.add_four.
    + simpl in Hlen. lia.
  - intros c Hc Hnc. apply Hcons.
    + by apply (reachable_same_shape h1 h); [apply same_shape_sym|].
    + by rewrite <- (same_shape_prev h h1).
Qed.



End Claims.

(** * Concrete runs *)

Lemma float_neq (x y : float) : PrimFloat.Leibniz.eqb x y = false -> x <> y.
Proof.
  intros H E. apply Leibniz.eqb_spec in E. rewrite E in H. discriminate.
Qed.

(** C2, as stated, fails: in the order built for [c = a.add(b)] the leaf
    [a] stands before [c], which depends on it. *)
Lemma topo_order_counterexample :
  buildTopo 3 sum_store 2 ([], []) = Some ([2; 0; 1], [0; 1; 2]) /\
  reachable sum_store 2 0 /\
  ~ dependents_first sum_store [0; 1; 2].
Proof.
  assert (reachable sum_store 2 0) as Hr.
  { apply (reach_step _ _ 0); [by_computation|constructor]. }
  split; [reflexivity|]. split; [done|].
  intros H. specialize (H 0 2 0 2 eq_refl eq_refl ltac:(lia) Hr). lia.
Qed.

(** C3, as stated, fails: in (a + b) + c a second [backward] leaves
    [a.grad = 3], not twice the 1 of the first run, and the root stays
    at 1. *)
Lemma backward_twice_counterexample :
  exists a L h h1 h2,
    nested_sum [] = Return (a, L) h /\ reachable h L a /\
    backward js0 5 L h = Return tt h1 /\
    backward js0 5 L h1 = Return tt h2 /\
    grad (h1 !!! a) = 1%float /\ grad (h2 !!! a) = 3%float /\
    grad (h2 !!! a) <> (2 * grad (h1 !!! a))%float /\
    grad (h1 !!! L) = 1%float /\ grad (h2 !!! L) = 1%float.
Proof.
  do 5 eexists. split; [reflexivity|]. split.
  { apply (reach_step _ _ 3); [by_computation|].
    apply (reach_step _ _ 0); [by_computation|constructor]. }
  split; [reflexivity|]. split; [reflexivity|].
  split; [vm_compute; reflexivity|]. split; [vm_compute; reflexivity|].
  split; [|split; vm_compute; reflexivity].
  apply float_neq. vm_compute. reflexivity.
Qed.



(** C10, as stated, fails for an object that already holds a gradient:
    after [a.backward()] has left [a.grad = 1], [backward] on [a.add(a)]
    leaves [a.grad = 3]. *)
Lemma add_self_counterexample :
  exists h1 s h' hf,
    backward js0 1 0 leaves_store = Return tt h1 /\
    add 0 (Node 0) h1 = Return s h' /\
    backward js0 4 s h' = Return tt hf /\
    grad (h1 !!! 0) = 1%float /\
    grad (hf !!! 0) = 3%float /\ grad (hf !!! 0) <> 2%float.
Proof.
  do 4 eexists. split; [reflexivity|]. split; [reflexivity|].
  split; [reflexivity|]. split; [vm_compute; reflexivity|].
  split; [vm_compute; reflexivity|].
  apply float_neq. vm_compute. reflexivity.
Qed.

(** * The hypotheses are met *)

Lemma backward_topological_order_witness :
  exists visited topo,
    buildTopo 7 complex_store 6 ([], []) = Some (visited, topo) /\
    operands_first complex_store topo /\
    backward js0 7 6 complex_store =
      Return tt (run_list js0 (reverse topo) (set_grad 6 1%float complex_store)).
Proof.
  destruct (backward_topological_order js0 complex_store 7 6)
    as (V&T&H1&_&_&H2&H3); [by_computation|lia|].
  exists V, T. split; [exact H1|]. split; [exact H2|exact H3].
Defined.

Lemma getNodes_reachable_witness :
  exists nodes edges,
    getNodes 7 6 complex_store = Return (nodes, edges) complex_store /\
    (forall n, n ∈ nodes <-> reachable complex_store 6 n).
Proof.
  destruct (getNodes_reachable complex_store 7 6)
    as (N&E&H1&_&H2&_); [by_computation|lia|].
  exists N, E. split; [exact H1|exact H2].
Defined.

Lemma zeroGrad_reachable_witness :
  exists h',
    zeroGrad 7 6 complex_store = Return tt h' /\
    (forall n, reachable complex_store 6 n -> grad (h' !!! n) = 0%float).
Proof.
  destruct (zeroGrad_reachable complex_store 7 6)
    as (h'&H1&H2&_); [by_computation|vm_compute; lia|lia|].
  exists h'. split; [exact H1|exact H2].
Defined.

Lemma backward_twice_witness :
  (exists h1 h2,
     backward js0 7 6 complex_store = Return tt h1 /\
     backward js0 7 6 h1 = Return tt h2 /\
     grad (h2 !!! 6) = 1%float /\
     grad (h2 !!! 3) = (2 * grad (h1 !!! 3%nat))%float) /\
  (exists h1 h2,
     backward js0 2 1 square_store = Return tt h1 /\
     backward js0 2 1 h1 = Return tt h2 /\
     grad (h1 !!! 0) = 6%float /\
     grad (h2 !!! 0) = (2 * grad (h1 !!! 0%nat))%float).
Proof.
  split.
  - destruct (backward_twice js0 complex_store 7 6)
      as (h1&h2&H1&H2&_&H3&H4); [by_computation|vm_compute; lia|lia|].
    exists h1, h2. split; [exact H1|]. split; [exact H2|].
    split; [exact H3|].
    apply H4; [by_computation|reflexivity|].
    intros c Hr Hin.
    apply (reachable_le complex_store 6 c) in Hr; [|by_computation].
    destruct c as [|[|[|[|[|[|[|c]]]]]]]; try reflexivity; try lia;
      exfalso; revert Hin; by_computation.
  - destruct (backward_twice js0 square_store 2 1)
      as (h1&h2&H1&H2&_&_&H4); [by_computation|vm_compute; lia|lia|].
    exists h1, h2. split; [exact H1|]. split; [exact H2|]. split.
    { pose proof H1 as E. vm_compute in E. injection E as <-. reflexivity. }
    apply H4; [by_computation|reflexivity|].
    intros c Hr Hin.
    apply (reachable_le square_store 1 c) in Hr; [|by_computation].
    destruct c as [|[|c]]; try reflexivity; try lia;
      exfalso; revert Hin; by_computation.
Defined.


Lemma add_self_witness :
  exists out h' hf,
    add 0 (Node 0) leaves_store = Return out h' /\
    _prev (h' !!! out) = [0] /\
    backward js0 3 out h' = Return tt hf /\ grad (hf !!! 0) = 2%float.
Proof.
  destruct (add_self js0 leaves_store 0 3)
    as (out&h'&hf&H1&H2&_&H3&_&H4);
    [by_computation|vm_compute; lia|vm_compute; lia|].
  exists out, h', hf. split; [exact H1|]. split; [exact H2|].
  split; [exact H3|]. apply H4. reflexivity.
Defined.


(** * More of the engine *)

Section MoreBackward.
Variable js : Builtins.
Implicit Types (h : list Value) (r root n : nat).

(** X1: the chain rule as [backward] computes it.  On a well-formed store
    [backward] returns; it calls the closures of exactly the reachable
    objects, each once, the root first and every object before its
    operands; the root ends with gradient 1 and every other object with
    its old gradient plus, in that order, the amounts its consumers'
    closures add, each computed from the consumer's final gradient. *)
Theorem backward_chain_rule h stack root :
  wf h -> root < length h -> root < stack ->
  exists order hf,
    backward js stack root h = Return tt hf /\
    hd_error order = Some root /\ NoDup order /\
    (forall n, n ∈ order <-> reachable h root n) /\
    consumers_first h order /\
    grad (hf !!! root) = 1%float /\
    (forall r, r < length h -> r <> root ->
       grad (hf !!! r) = fsum (grad (h !!! r)) (received js hf order r)).
Proof.
  intros Hwf Hroot Hstack.
  destruct (backward_result js h stack root Hwf Hroot Hstack)
    as (rest&hf&Hb&_&HS&HND&HT&HR&Hg1&Hgr).
  exists (root :: reverse rest), hf. split; [done|]. split; [done|].
  rewrite <- reverse_snoc. split; [by apply NoDup_reverse|].
  split; [intros n; by rewrite elem_of_reverse|].
  split; [by apply consumers_first_reverse|].
  split; [done|]. by rewrite reverse_snoc.
Qed.

(** X2: [backward] writes gradients only, and only of reachable objects:
    the store keeps its length, every object keeps its data, operands,
    operation tag, closure and label, and an object that is not reachable
    from the root is left exactly as it was. *)
Theorem backward_frame h stack root :
  wf h -> root < length h -> root < stack ->
  exists hf,
    backward js stack root h = Return tt hf /\
    length hf = length h /\
    (forall n, data (hf !!! n) = data (h !!! n) /\
               _prev (hf !!! n) = _prev (h !!! n) /\
               _op (hf !!! n) = _op (h !!! n) /\
               _backward (hf !!! n) = _backward (h !!! n) /\
               label (hf !!! n) = label (h !!! n)) /\
    (forall n, ~ reachable h root n -> hf !!! n = h !!! n).
Proof.
  intros Hwf Hroot Hstack.
  destruct (backward_result js h stack root Hwf Hroot Hstack)
    as (rest&hf&Hb&Hhf&HS&HND&HT&HR&Hg1&Hgr).
  exists hf. split; [done|]. split; [apply HS|]. split.
  - intros n. destruct HS as [_ S].
    destruct (shape_inv _ _ (S n)) as (?&?&?&?&?). done.
  - intros n Hn. apply (backward_untouched js h root rest); try done.
    + intros m Hm. by apply HR.
    + intros ->. apply Hn. constructor.
    + intros c Hc Hin. apply Hn. eapply reachable_trans; [done|].
      econstructor; [done|constructor].
Qed.

Lemma closure_without_targets (c : closure) : targets c = [] -> c = Noop.
Proof. by destruct c. Qed.

(** X3: [backward] on a leaf sets its gradient to 1 and does nothing
    else; one stack frame is enough. *)
Theorem backward_leaf h stack root :
  wf h -> prev h root = [] -> 0 < stack ->
  backward js stack root h = Return tt (set_grad root 1%float h).
Proof.
  intros Hwf Hleaf Hstack. destruct stack as [|stack]; [lia|].
  unfold backward. simpl. fold (prev h root). rewrite Hleaf. simpl.
  unfold call_backward.
  assert (_backward (set_grad root 1%float h !!! root) = Noop) as ->; [|done].
  rewrite (same_shape_backward h) by apply same_shape_set_grad.
  apply closure_without_targets.
  destruct (targets (_backward (h !!! root))) as [|t l] eqn:E; [done|].
  assert (t ∈ prev h root) as Hin
    by (apply (wf_targets h root t Hwf); rewrite E; left).
  rewrite Hleaf in Hin. by apply elem_of_nil in Hin.
Qed.

(** X4: [getNodes] lists the objects whose closures [backward] calls:
    the two traversals reach the same objects, each once. *)
Theorem getNodes_backward_same_nodes h stack root :
  wf h -> root < stack ->
  exists nodes edges visited topo,
    build stack h root ([], []) = Some (nodes, edges) /\
    buildTopo stack h root ([], []) = Some (visited, topo) /\
    nodes ≡ₚ topo /\ hd_error nodes = Some root /\ last topo = Some root.
Proof.
  intros Hwf Hstack.
  destruct (build_root h Hwf stack root Hstack) as (N&E&Eq&HN&HE&HNr&HEr).
  destruct (buildTopo_root h Hwf stack root Hstack) as (V&rest&Et&HND&HT&HR).
  exists N, E, V, (rest ++ [root]). split; [done|]. split; [done|].
  split; [|split].
  - apply NoDup_Permutation; [done|done|]. intros n. by rewrite HNr, HR.
  - destruct stack as [|stack]; [lia|]. simpl in Eq.
    change (for_of _ (_prev (h !!! root)) ?st) with
      (for_of (build_body h stack root) (prev h root) st) in Eq.
    destruct (build_loop h Hwf stack root (prev h root))
      with (N := [root]) (E := @nil (nat * nat)) as (Nn&En&El&_).
    + intros c N0 E0 Hc H1 H2. by apply build_spec.
    + lia.
    + done.
    + by apply wf_prev_NoDup.
    + left.
    + intros n Hn Hlt. apply list_elem_of_singleton in Hn. lia.
    + apply NoDup_singleton.
    + unfold JSSet.add, JSSet.has in Eq. simpl in Eq.
      rewrite El in Eq. by injection Eq as <- _.
  - by rewrite last_snoc.
Qed.

End MoreBackward.

Section MoreOperations.
Variable js : Builtins.
Implicit Types (h : list Value) (r a b this n : nat).

Lemma ltb_zero_asym (x : float) : (x <? 0)%float = true -> (0 <? x)%float = false.
Proof.
  rewrite !ltb_spec. change (Prim2SF 0) with (S754_zero false).
  destruct (Prim2SF x) as [s|s| |s m e]; try done; destruct s; done.
Qed.

(** X5: [relu] returns a new object that is never below 0: it holds 0
    when the operand is negative and the operand's data otherwise (NaN
    included), and it is positive exactly when the operand is. *)
Theorem relu_forward this h :
  exists v,
    relu this h = Return (length h) (h ++ [v]) /\
    (data v <? 0)%float = false /\
    (0 <? data v)%float = (0 <? data (h !!! this))%float /\
    ((data (h !!! this) <? 0)%float = true -> data v = 0%float) /\
    ((data (h !!! this) <? 0)%float = false -> data v = data (h !!! this)).
Proof.
  rewrite relu_eq. eexists. split; [reflexivity|]. simpl.
  destruct (data (h !!! this) <? 0)%float eqn:E.
  - split; [reflexivity|]. split.
    + rewrite (ltb_zero_asym (data (h !!! this))) by done. reflexivity.
    + split; [done|]. intros; discriminate.
  - split; [done|]. split; [done|]. split; [intros; discriminate|done].
Qed.

Lemma unary_backward h a stack (v : Value) :
  wf h -> a < length h -> length h < stack ->
  _prev v = [a] -> node_ok (length h) v ->
  exists hf,
    backward js stack (length h) (h ++ [v]) = Return tt hf /\
    grad (hf !!! length h) = 1%float /\
    (forall r, data (hf !!! r) = data ((h ++ [v]) !!! r)) /\
    grad (hf !!! a) = fsum (grad (h !!! a)) (incr js (_backward v) hf a).
Proof.
  intros Hwf Ha Hstack Hprev Hv.
  destruct (backward_top_direct js h v stack Hwf Hv Hstack)
    as (hf&Hbw&HS&Hg1&Hgr).
  exists hf. split; [done|]. split; [done|].
  split; [intros r; by apply same_shape_data|].
  apply Hgr; [done|]. intros c n Hc Hr Hin. rewrite Hprev in Hc.
  apply list_elem_of_singleton in Hc as ->.
  apply (reachable_le h _ _ Hwf) in Hr.
  apply (wf_prev_lt h _ _ Hwf) in Hin. lia.
Qed.

Lemma incr_unary (cl : closure) h a :
  targets cl = [a] ->
  incr js cl h a = (contributions js cl h).*2.
Proof.
  intros Ht. unfold incr.
  destruct cl as [|t o out|t o out|t p out|t out|t x out|t out];
    simpl in *; try done; injection Ht as ->;
    rewrite filter_cons; simpl; by rewrite decide_True.
Qed.

(** X6: the backward rules of the one-operand operations.  For an
    operand [a] with gradient 0, [backward] on the result of [pow],
    [relu], [tanh] or [exp] leaves in [a.grad] the local derivative the
    closure computes: [p * Math.pow(a.data, p - 1)], 1 or 0 by the sign of
    the output, [1 - t * t] for the output [t], and the output itself. *)
Theorem unary_backward_rules h a (p : float) stack :
  wf h -> a < length h -> grad (h !!! a) = 0%float -> length h < stack ->
  (exists out h' hf,
     pow js a (JNumber p) h = Return out h' /\
     backward js stack out h' = Return tt hf /\
     grad (hf !!! a) =
       (0 + p * Math_pow js (data (h !!! a)) (p - 1))%float) /\
  (exists out h' hf,
     relu a h = Return out h' /\
     backward js stack out h' = Return tt hf /\
     grad (hf !!! a) =
       (0 + (if (0 <? data (h' !!! out))%float then 1 else 0))%float) /\
  (exists out h' hf,
     tanh js a h = Return out h' /\
     backward js stack out h' = Return tt hf /\
     grad (hf !!! a) =
       (0 + (1 - data (h' !!! out) * data (h' !!! out)))%float) /\
  (exists out h' hf,
     exp js a h = Return out h' /\
     backward js stack out h' = Return tt hf /\
     grad (hf !!! a) = (0 + data (h' !!! out))%float).
Proof.
  intros Hwf Ha Hga Hstack. repeat split.
  - rewrite pow_JNumber. set (v := result_node _ _ _ _).
    destruct (unary_backward h a stack v) as (hf&Hb&Hg1&Hd&Hg);
      [done..|by apply node_ok_unary|].
    exists (length h), (h ++ [v]), hf. split; [done|]. split; [done|].
    rewrite Hg, Hga, incr_unary by done. simpl.
    rewrite Hg1, Hd, lookup_total_old by done.
    by rewrite Float64.mul_one_r.
  - rewrite relu_eq. set (v := result_node _ _ _ _).
    destruct (unary_backward h a stack v) as (hf&Hb&Hg1&Hd&Hg);
      [done..|by apply node_ok_unary|].
    exists (length h), (h ++ [v]), hf. split; [done|]. split; [done|].
    rewrite Hg, Hga, incr_unary by done. simpl.
    rewrite Hg1, Hd. by rewrite Float64.mul_one_r.
  - rewrite tanh_eq. simpl. set (v := result_node _ _ _ _).
    destruct (unary_backward h a stack v) as (hf&Hb&Hg1&Hd&Hg);
      [done..|by apply node_ok_unary|].
    exists (length h), (h ++ [v]), hf. split; [done|]. split; [done|].
    rewrite Hg, Hga, incr_unary by done. simpl.
    rewrite Hg1, lookup_total_new. by rewrite Float64.mul_one_r.
  - rewrite exp_eq. set (v := result_node _ _ _ _).
    destruct (unary_backward h a stack v) as (hf&Hb&Hg1&Hd&Hg);
      [done..|by apply node_ok_unary|].
    exists (length h), (h ++ [v]), hf. split; [done|]. split; [done|].
    rewrite Hg, Hga, incr_unary by done. simpl.
    rewrite Hg1, Hd. by rewrite Float64.mul_one_r.
Qed.

Lemma incr_MulBack_this a b out h :
  a <> b ->
  incr js (MulBack a b out) h a = [(data (h !!! b) * grad (h !!! out))%float].
Proof.
  intros Hne. unfold incr. simpl. rewrite !filter_cons. simpl.
  rewrite decide_True by done. rewrite decide_False by congruence. done.
Qed.

Lemma incr_MulBack_other a b out h :
  a <> b ->
  incr js (MulBack a b out) h b = [(data (h !!! a) * grad (h !!! out))%float].
Proof.
  intros Hne. unfold incr. simpl. rewrite !filter_cons. simpl.
  rewrite decide_False by done. rewrite decide_True by done. done.
Qed.

(** X7: the backward rule of [mul].  For two different objects with
    gradient 0, neither reachable from the other, [a.mul(b)] holds
    [a.data * b.data], and [backward] on it leaves [b.data] in [a.grad]
    and [a.data] in [b.grad] (each added to the 0 that was there). *)
Theorem mul_backward_distinct h a b stack :
  wf h -> a < length h -> b < length h -> a <> b ->
  grad (h !!! a) = 0%float -> grad (h !!! b) = 0%float ->
  ~ reachable h a b -> ~ reachable h b a -> length h < stack ->
  exists out h' hf,
    mul a (Node b) h = Return out h' /\
    data (h' !!! out) = (data (h !!! a) * data (h !!! b))%float /\
    backward js stack out h' = Return tt hf /\
    grad (hf !!! a) = (0 + data (h !!! b))%float /\
    grad (hf !!! b) = (0 + data (h !!! a))%float.
Proof.
  intros Hwf Ha Hb Hne Hga Hgb Hab Hba Hstack.
  rewrite mul_Node.
  set (v := result_node _ _ _ _).
  assert (node_ok (length h) v) as Hv by (by apply node_ok_binary).
  assert (_prev v = [a; b]) as Hprev.
  { unfold v, result_node. simpl. rewrite JSSet_from_pair.
    by rewrite decide_False. }
  destruct (backward_top_direct js h v stack Hwf Hv Hstack)
    as (hf&Hbw&HS&Hg1&Hgr).
  assert (forall r, r < length h -> data (hf !!! r) = data (h !!! r)) as Hdata.
  { intros r Hr. rewrite (same_shape_data (h ++ [v]) hf) by done.
    by rewrite lookup_total_old. }
  exists (length h), (h ++ [v]), hf. split; [done|].
  split; [by rewrite lookup_total_new|]. split; [done|]. split.
  - rewrite Hgr; [|done|].
    + unfold v at 1. simpl _backward. rewrite incr_MulBack_this by done.
      rewrite Hga, Hg1, Hdata by done. simpl.
      by rewrite Float64.mul_one_r.
    + intros c n Hc Hr Hin. rewrite Hprev in Hc.
      apply elem_of_cons in Hc as [->|Hc].
      * apply (reachable_le h _ _ Hwf) in Hr.
        apply (wf_prev_lt h _ _ Hwf) in Hin. lia.
      * apply list_elem_of_singleton in Hc as ->. apply Hba.
        eapply reachable_trans; [done|]. econstructor; [done|constructor].
  - rewrite Hgr; [|done|].
    + unfold v at 1. simpl _backward. rewrite incr_MulBack_other by done.
      rewrite Hgb, Hg1, Hdata by done. simpl.
      by rewrite Float64.mul_one_r.
    + intros c n Hc Hr Hin. rewrite Hprev in Hc.
      apply elem_of_cons in Hc as [->|Hc].
      * apply Hab. eapply reachable_trans; [done|].
        econstructor; [done|constructor].
      * apply list_elem_of_singleton in Hc as ->.
        apply (reachable_le h _ _ Hwf) in Hr.
        apply (wf_prev_lt h _ _ Hwf) in Hin. lia.
Qed.

End MoreOperations.

Section Construction.
Variable js : Builtins.
Implicit Types (h : list Value) (r a b this n : nat).

Lemma JSSet_add_spec (s : list nat) x :
  NoDup s ->
  NoDup (JSSet.add s x) /\ forall y, y ∈ JSSet.add s x <-> y ∈ s \/ y = x.
Proof.
  intros HND. unfold JSSet.add, JSSet.has. case_bool_decide as Hx.
  - split; [done|]. intros y. split; [tauto|]. by intros [?| ->].
  - split.
    + apply NoDup_app. split; [done|]. split; [|apply NoDup_singleton].
      intros y Hy ->%list_elem_of_singleton. done.
    + intros y. by rewrite elem_of_app, list_elem_of_singleton.
Qed.

Lemma JSSet_fold_spec (l s : list nat) :
  NoDup s ->
  NoDup (fold_left JSSet.add l s) /\
  forall y, y ∈ fold_left JSSet.add l s <-> y ∈ s \/ y ∈ l.
Proof.
  revert s. induction l as [|x l IH]; intros s HND; simpl.
  - split; [done|]. intros y. rewrite elem_of_nil. tauto.
  - destruct (JSSet_add_spec s x HND) as [HND' Hadd].
    destruct (IH _ HND') as [HN Hin]. split; [done|].
    intros y. rewrite Hin, Hadd, elem_of_cons. tauto.
Qed.

(** X8: the constructor.  [new Value(data, children, op, label)] leaves
    the store as it was and appends one object with gradient 0, the empty
    closure, and a [_prev] that holds each of the children exactly once,
    however often the array names it. *)
Theorem new_Value_fresh (d : float) (children : list nat) (op lbl : string) h :
  exists v,
    new_Value d children op lbl h = Return (length h) (h ++ [v]) /\
    data v = d /\ grad v = 0%float /\ _backward v = Noop /\
    _op v = op /\ label v = lbl /\
    NoDup (_prev v) /\ (forall c, c ∈ _prev v <-> c ∈ children).
Proof.
  eexists. split; [reflexivity|]. simpl.
  destruct (JSSet_fold_spec children []) as [HND Hin]; [constructor|].
  do 5 (split; [done|]). split; [done|].
  intros c. unfold JSSet.from. rewrite Hin, elem_of_nil. tauto.
Qed.

Ltac wf_grow :=
  repeat (apply wf_snoc;
          [|first [ apply (node_ok_leaf _ _ EmptyString)
                  | apply node_ok_binary
                  | apply node_ok_unary ];
            rewrite ?length_app; simpl; first [lia | reflexivity]]).

Ltac in_range := rewrite ?length_app; simpl; lia.

(** X9: the methods keep the store well formed.  Applied to objects of a
    well-formed store (or to raw numbers), every operation returns, and
    the store it leaves is again one where operands are older than their
    consumers and every closure belongs to its object: the graph stays
    acyclic whatever is built. *)
Theorem operations_keep_wf this (other : operand) (p : float) h :
  wf h -> this < length h -> operand_ok h other ->
  keeps_wf (add this other h) /\
  keeps_wf (mul this other h) /\
  keeps_wf (pow js this (JNumber p) h) /\
  keeps_wf (relu this h) /\
  keeps_wf (tanh js this h) /\
  keeps_wf (exp js this h) /\
  keeps_wf (neg this h) /\
  keeps_wf (sub this other h) /\
  keeps_wf (div js this other h).
Proof.
  intros Hwf Hthis Hother.
  split.
  { destruct other; simpl in Hother; rewrite ?add_Num, add_Node;
      (split; [wf_grow; done|in_range]). }
  split.
  { destruct other; simpl in Hother; rewrite ?mul_Num, mul_Node;
      (split; [wf_grow; done|in_range]). }
  split.
  { rewrite pow_JNumber. split; [wf_grow; done|in_range]. }
  split.
  { rewrite relu_eq. split; [wf_grow; done|in_range]. }
  split.
  { rewrite tanh_eq. split; [wf_grow; done|in_range]. }
  split.
  { rewrite exp_eq. split; [wf_grow; done|in_range]. }
  split.
  { unfold neg. rewrite mul_Num, mul_Node. split; [wf_grow; done|in_range]. }
  split.
  { unfold sub, neg, bind. destruct other; simpl in Hother.
    - rewrite mul_Num, mul_Node, add_Node. split; [wf_grow; done|in_range].
    - unfold new_Value at 1. rewrite mul_Num, mul_Node, add_Node.
      split; [wf_grow; done|in_range]. }
  unfold div, bind. destruct other; simpl in Hother.
  - rewrite pow_JNumber, mul_Node. split; [wf_grow; done|in_range].
  - unfold new_Value at 1. rewrite pow_JNumber, mul_Node.
    split; [wf_grow; done|in_range].
Qed.

End Construction.

(** * nn.js *)

Section Perceptron.
Variable js : Builtins.
Variable Math_random : nat -> float.
Implicit Types (h : list Value) (n : NN.Neuron) (x : NN.input).

(** X10: a neuron checks the shape of its input before it touches the
    store: an array whose length is not [nin], or a single [Value] (whose
    [length] is undefined), makes [forward] throw, and no object has been
    allocated or changed. *)
Theorem Neuron_forward_rejects n x h :
  match x with
  | NN.Arr xs => length xs <> NN.nin n
  | NN.Single _ => True
  end ->
  exists msg, NN.Neuron_forward js n x h = Throw (Error msg) h.
Proof.
  intros Hx. destruct x as [xs|r]; simpl.
  - apply Nat.eqb_neq in Hx. rewrite Hx. by eexists.
  - by eexists.
Qed.

Lemma map_M_throw {A B : Type} (f : A -> M B) (a : A) (l : list A) h e h' :
  f a h = Throw e h' -> map_M f (a :: l) h = Throw e h'.
Proof. intros H. simpl. unfold bind. by rewrite H. Qed.

Lemma Layer_forward_single (l : NN.Layer) n x h :
  NN.neurons l = [n] ->
  (exists e h', NN.Layer_forward js l x h = Throw e h') \/
  (exists o h', NN.Layer_forward js l x h = Return (NN.Single o) h').
Proof.
  intros Hl. unfold NN.Layer_forward, bind. rewrite Hl. simpl. unfold bind.
  destruct (NN.Neuron_forward js n x h) as [o h'|e h'].
  - right. by eexists _, _.
  - left. by eexists _, _.
Qed.

Lemma Layer_forward_Single_throws (l : NN.Layer) r h :
  NN.neurons l <> [] ->
  exists e, NN.Layer_forward js l (NN.Single r) h = Throw e h.
Proof.
  intros Hl. unfold NN.Layer_forward, bind.
  destruct (NN.neurons l) as [|n ns]; [done|].
  rewrite (map_M_throw _ n ns h
             (Error (NN.expected_message js (NN.nin n) None)) h); [|done].
  by eexists.
Qed.

Lemma forward_through_app (pre post : list NN.Layer) x h :
  NN.forward_through js (pre ++ post) x h =
  match NN.forward_through js pre x h with
  | Return o h' => NN.forward_through js post o h'
  | Throw e h' => Throw e h'
  end.
Proof.
  revert x h. induction pre as [|l pre IH]; intros x h; [done|].
  simpl. unfold bind. destruct (NN.Layer_forward js l x h); [apply IH|done].
Qed.

(** X11: a layer of exactly one neuron hands on a bare [Value], not an
    array, and the neurons of the next layer reject it.  So a perceptron
    with a one-neuron layer that is followed by a non-empty layer throws
    on every input, whatever its weights. *)
Theorem MLP_forward_one_neuron_layer (m : NN.MLP)
    (pre post : list NN.Layer) (l1 l2 : NN.Layer) n x h :
  NN.layers m = pre ++ l1 :: l2 :: post ->
  NN.neurons l1 = [n] -> NN.neurons l2 <> [] ->
  exists e h', NN.MLP_forward js m x h = Throw e h'.
Proof.
  intros Hm H1 H2. unfold NN.MLP_forward. rewrite Hm, forward_through_app.
  destruct (NN.forward_through js pre x h) as [o h0|e h0]; [|by eexists _, _].
  simpl. unfold bind.
  destruct (Layer_forward_single l1 n o h0 H1) as [(e&h1&E)|(v&h1&E)];
    rewrite E; [by eexists _, _|].
  destruct (Layer_forward_Single_throws l2 v h1 H2) as (e&E2).
  rewrite E2. by eexists _, _.
Qed.

Lemma shape_set_data_ne p d h r : p <> r -> set_data p d h !!! r = h !!! r.
Proof. intros. unfold set_data. by rewrite list_lookup_total_alter_ne. Qed.

(** X12: [zeroGrad] of a module sets the gradient of each listed
    parameter to 0 and nothing else: every other object keeps its
    gradient, and no object's data, operands, tag, closure or label
    changes.  Unlike [Value.zeroGrad] it does not follow operand links. *)
Theorem Module_zeroGrad_parameters (params : list nat) h :
  exists h',
    NN.zeroGrad params h = Return tt h' /\ length h' = length h /\
    (forall p, p ∈ params -> p < length h -> grad (h' !!! p) = 0%float) /\
    (forall r, r ∉ params -> h' !!! r = h !!! r) /\
    (forall r, shape (h' !!! r) = shape (h !!! r)).
Proof.
  exists (zero_all params h). split; [done|].
  split; [apply zero_all_same_shape|]. split; [|split].
  - intros p Hp Hlt. by apply zero_all_grad.
  - intros r Hr. by apply zero_all_other.
  - apply zero_all_same_shape.
Qed.

Lemma lookup_set_data_eq p d h :
  p < length h -> set_data p d h !!! p = with_data d (h !!! p).
Proof. intros. unfold set_data. by rewrite list_lookup_total_alter_eq. Qed.

Lemma length_set_data p d h : length (set_data p d h) = length h.
Proof. apply length_alter. Qed.

Lemma set_data_fields p d h r :
  grad (set_data p d h !!! r) = grad (h !!! r) /\
  _prev (set_data p d h !!! r) = _prev (h !!! r) /\
  _op (set_data p d h !!! r) = _op (h !!! r) /\
  _backward (set_data p d h !!! r) = _backward (h !!! r) /\
  label (set_data p d h !!! r) = label (h !!! r).
Proof.
  unfold set_data. rewrite list_lookup_total_alter.
  case_decide as Hd; [destruct Hd as [-> _]|]; done.
Qed.

Lemma descend_length lr params h : length (descend lr params h) = length h.
Proof.
  revert h. induction params as [|p ps IH]; intros h; [done|].
  simpl. change (fold_left _ ps ?x) with (descend lr ps x).
  by rewrite IH, length_set_data.
Qed.

Lemma descend_other lr params h r :
  r ∉ params -> descend lr params h !!! r = h !!! r.
Proof.
  revert h. induction params as [|p ps IH]; intros h Hr; [done|].
  apply not_elem_of_cons in Hr as [Hne Hr]. simpl.
  change (fold_left _ ps ?x) with (descend lr ps x).
  rewrite IH by done. by apply shape_set_data_ne.
Qed.

Lemma descend_fields lr params h r :
  grad (descend lr params h !!! r) = grad (h !!! r) /\
  _prev (descend lr params h !!! r) = _prev (h !!! r) /\
  _op (descend lr params h !!! r) = _op (h !!! r) /\
  _backward (descend lr params h !!! r) = _backward (h !!! r) /\
  label (descend lr params h !!! r) = label (h !!! r).
Proof.
  revert h. induction params as [|p ps IH]; intros h; [done|].
  simpl. change (fold_left _ ps ?x) with (descend lr ps x).
  destruct (IH (set_data p (data (h !!! p) + - lr * grad (h !!! p))%float h))
    as (->&->&->&->&->).
  apply set_data_fields.
Qed.

Lemma descend_data lr params h p :
  NoDup params -> p ∈ params -> p < length h ->
  data (descend lr params h !!! p) =
  (data (h !!! p) + - lr * grad (h !!! p))%float.
Proof.
  revert h. induction params as [|q ps IH]; intros h HND Hp Hlt.
  - by apply elem_of_nil in Hp.
  - apply NoDup_cons in HND as [Hq HND]. simpl.
    change (fold_left _ ps ?x) with (descend lr ps x).
    apply elem_of_cons in Hp as [->|Hp].
    + rewrite descend_other by done. by rewrite lookup_set_data_eq.
    + assert (q <> p) as Hne by (by intros ->).
      rewrite IH; [|done|done|by rewrite length_set_data].
      by rewrite shape_set_data_ne.
Qed.

(** X13: [updateParameters] overwrites the data of every parameter with
    [data + -learningRate * grad] (learning rate 0.01 when none is given)
    and leaves gradients, operands, closures and every other object as
    they were, provided no parameter is listed twice. *)
Theorem MLP_updateParameters_step (m : NN.MLP) (learningRate : option float) h :
  NoDup (NN.MLP_parameters m) ->
  exists h',
    NN.updateParameters m learningRate h = Return tt h' /\
    length h' = length h /\
    (forall p, p ∈ NN.MLP_parameters m -> p < length h ->
       data (h' !!! p) =
       (data (h !!! p) +
        - default 0x1.47ae147ae147bp-7%float learningRate * grad (h !!! p))%float) /\
    (forall r, r ∉ NN.MLP_parameters m -> h' !!! r = h !!! r) /\
    (forall r, grad (h' !!! r) = grad (h !!! r) /\
               _prev (h' !!! r) = _prev (h !!! r) /\
               _op (h' !!! r) = _op (h !!! r) /\
               _backward (h' !!! r) = _backward (h !!! r) /\
               label (h' !!! r) = label (h !!! r)).
Proof.
  intros HND.
  exists (descend (default 0x1.47ae147ae147bp-7%float learningRate)
            (NN.MLP_parameters m) h).
  split; [done|]. split; [apply descend_length|]. split; [|split].
  - intros p Hp Hlt. by apply descend_data.
  - intros r Hr. by apply descend_other.
  - intros r. apply descend_fields.
Qed.

Lemma node_ok_is_leaf i (v : Value) : is_leaf v -> node_ok i v.
Proof.
  intros (_&Hp&Hb). unfold node_ok. rewrite Hp, Hb. simpl.
  repeat split; constructor.
Qed.

Lemma wf_app_leaves h (ext : list Value) :
  wf h -> Forall is_leaf ext -> wf (h ++ ext).
Proof.
  intros Hwf. revert h Hwf. induction ext as [|v ext IH]; intros h Hwf Hl.
  - by rewrite app_nil_r.
  - apply Forall_cons in Hl as [Hv Hl].
    rewrite (cons_middle v h ext), (assoc_L (++)). apply IH; [|done].
    apply wf_snoc; [done|]. by apply node_ok_is_leaf.
Qed.

Lemma random_Value_eq lbl h :
  NN.random_Value Math_random lbl h =
  Return (length h)
    (h ++ [ {| data := (Math_random (length h) * 2 - 1)%float;
               grad := 0%float; _backward := Noop; _prev := [];
               _op := EmptyString; label := lbl |} ]).
Proof. reflexivity. Qed.

Lemma bind_eq {A B : Type} (m : M A) (k : A -> M B) h :
  bind m k h =
  match m h with
  | Return a h' => k a h'
  | Throw e h' => Throw e h'
  end.
Proof. reflexivity. Qed.

Lemma for_upto_S {A : Type} k i (body : nat -> A -> M A) (acc : A) h :
  for_upto (S k) i body acc h =
  match body i acc h with
  | Return a h' => for_upto k (S i) body a h'
  | Throw e h' => Throw e h'
  end.
Proof. reflexivity. Qed.

Lemma init_weights_loop k : forall i (ws : list nat) h,
  exists ext,
    for_upto k i
      (fun i ws =>
         weight <- NN.random_Value Math_random
                     ("w" ++ Number_toString js (nat_to_float i)) ;;
         ret (ws ++ [weight])) ws h =
    Return (ws ++ seq (length h) k) (h ++ ext) /\
    length ext = k /\ Forall is_leaf ext.
Proof.
  induction k as [|k IH]; intros i ws h.
  - exists []. simpl. by rewrite !app_nil_r.
  - rewrite for_upto_S. unfold bind at 1. rewrite random_Value_eq.
    unfold ret at 1.
    match goal with
    | |- context [for_upto k (S i) _ _ (h ++ [?v])] =>
        destruct (IH (S i) (ws ++ [length h]) (h ++ [v]))
          as (ext&E&Hlen&Hleaf); rewrite E; exists (v :: ext)
    end.
    rewrite length_app, Nat.add_1_r. simpl.
    rewrite <- !(assoc_L (++)). simpl.
    split; [done|]. split; [by rewrite Hlen|].
    apply Forall_cons. split; [done|done].
Qed.

Lemma Neuron_new_grows (k : nat) h :
  exists ext,
    NN.Neuron_new js Math_random k h =
      Return {| NN.nin := k; NN.w := seq (length h) k; NN.b := length h + k |}
             (h ++ ext) /\
    length ext = S k /\ Forall is_leaf ext.
Proof.
  destruct (init_weights_loop k 0 [] h) as (ext&E&Hlen&Hleaf).
  unfold NN.Neuron_new. rewrite bind_eq.
  unfold NN.Neuron_init. rewrite bind_eq, E, bind_eq, random_Value_eq.
  unfold ret. simpl.
  eexists (ext ++ [_]). rewrite (assoc_L (++)), length_app, Hlen.
  split; [reflexivity|]. rewrite length_app, Hlen. simpl. split; [lia|].
  apply Forall_app. split; [exact Hleaf|]. apply Forall_singleton.
  unfold is_leaf. simpl. tauto.
Qed.

(** X14: [new Neuron(nin)] allocates [nin] weights and then a bias, all
    fresh leaves with gradient 0, in consecutive addresses; the neuron's
    [w] has exactly [nin] entries and its parameters are [nin + 1]
    different objects.  A well-formed store stays well formed. *)
Theorem Neuron_new_fresh (k : nat) h :
  exists n ext,
    NN.Neuron_new js Math_random k h = Return n (h ++ ext) /\
    NN.nin n = k /\ NN.w n = seq (length h) k /\ NN.b n = length h + k /\
    NN.Neuron_parameters n = seq (length h) (S k) /\
    NoDup (NN.Neuron_parameters n) /\
    length ext = S k /\ Forall is_leaf ext /\
    (wf h -> wf (h ++ ext)).
Proof.
  destruct (Neuron_new_grows k h) as (ext&E&Hlen&Hleaf).
  eexists _, ext. split; [exact E|]. simpl.
  split; [done|]. split; [done|]. split; [done|].
  assert (seq (length h) k ++ [length h + k] = seq (length h) (S k)) as Hseq.
  { by rewrite seq_S. }
  unfold NN.Neuron_parameters. simpl. rewrite Hseq.
  split; [done|]. split; [apply NoDup_seq|].
  split; [done|]. split; [done|]. intros Hwf. by apply wf_app_leaves.
Qed.

Lemma operand_ok_grow h (ext : list Value) (o : operand) :
  operand_ok h o ->
  operand_ok (h ++ ext) o /\ operand_data (h ++ ext) o = operand_data h o.
Proof.
  destruct o as [r|v]; simpl; [|done]. intros Hr.
  rewrite length_app, lookup_total_app_l by done. split; [lia|done].
Qed.

Lemma map_promote_grows (xs : list operand) : forall h,
  Forall (operand_ok h) xs ->
  exists inputs ext,
    map_M promote xs h = Return inputs (h ++ ext) /\
    length inputs = length xs /\ Forall is_leaf ext /\
    Forall (fun r => r < length (h ++ ext)) inputs /\
    map (fun r => data ((h ++ ext) !!! r)) inputs = map (operand_data h) xs.
Proof.
  induction xs as [|x xs IH]; intros h Hok.
  - exists [], []. rewrite app_nil_r. by repeat split.
  - apply Forall_cons in Hok as [Hx Hok]. simpl map_M. rewrite bind_eq.
    destruct x as [r|v]; simpl promote.
    + unfold ret at 1. rewrite bind_eq.
      destruct (IH h Hok) as (inputs&ext&E&Hlen&Hleaf&Hin&Hdata).
      rewrite E. exists (r :: inputs), ext. split; [done|].
      split; [simpl; by rewrite Hlen|]. split; [done|].
      simpl in Hx. split.
      * apply Forall_cons. split; [rewrite length_app; lia|done].
      * simpl. rewrite Hdata. by rewrite lookup_total_app_l.
    + unfold new_Value at 1. rewrite bind_eq.
      set (leaf := {| data := v; grad := 0%float; _backward := Noop;
                      _prev := JSSet.from []; _op := EmptyString;
                      label := EmptyString |}).
      destruct (IH (h ++ [leaf])) as (inputs&ext&E&Hlen&Hleaf&Hin&Hdata).
      { eapply Forall_impl; [exact Hok|]. intros o Ho.
        by apply operand_ok_grow. }
      rewrite E. exists (length h :: inputs), (leaf :: ext).
      rewrite <- (assoc_L (++)) in *. simpl in *.
      split; [done|]. split; [by rewrite Hlen|].
      split; [apply Forall_cons; by split|]. split.
      * apply Forall_cons. split; [rewrite length_app; simpl; lia|done].
      * rewrite Hdata. f_equal.
        -- rewrite (cons_middle leaf h ext), (assoc_L (++)).
           rewrite lookup_total_app_l by (rewrite length_app; simpl; lia).
           by rewrite lookup_total_new.
        -- apply Forall_fmap_ext_1. eapply Forall_impl; [exact Hok|].
           intros o Ho. by apply operand_ok_grow.
Qed.

Lemma weighted_loop (ws inputs : list nat) (H : list Value) :
  Forall (fun r => r < length H) ws ->
  Forall (fun r => r < length H) inputs ->
  length inputs = length ws ->
  forall k i act (ext : list Value),
  i + k = length ws -> act < length (H ++ ext) ->
  exists act' ext',
    for_upto k i
      (fun i act =>
         p <- mul (ws !!! i) (Node (inputs !!! i)) ;; add act (Node p))
      act (H ++ ext) = Return act' (H ++ ext') /\
    act' < length (H ++ ext') /\
    data ((H ++ ext') !!! act') =
      weighted_sum (drop i (map (fun r => data (H !!! r)) ws))
                   (drop i (map (fun r => data (H !!! r)) inputs))
                   (data ((H ++ ext) !!! act)) /\
    (wf (H ++ ext) -> wf (H ++ ext')).
Proof.
  intros Hws Hin Hlen. induction k as [|k IH]; intros i act ext Hik Hact.
  - exists act, ext. split; [done|]. split; [done|]. split; [|done].
    rewrite !drop_ge by (rewrite length_map; lia). done.
  - assert (i < length ws) as Hi by lia.
    destruct (lookup_lt_is_Some_2 ws i Hi) as [wi Hwi].
    destruct (lookup_lt_is_Some_2 inputs i) as [xi Hxi]; [lia|].
    assert (wi < length H) as Hwil
      by (rewrite Forall_lookup in Hws; by eapply Hws).
    assert (xi < length H) as Hxil
      by (rewrite Forall_lookup in Hin; by eapply Hin).
    rewrite for_upto_S, bind_eq.
    rewrite (list_lookup_total_correct ws i wi Hwi).
    rewrite (list_lookup_total_correct inputs i xi Hxi).
    rewrite mul_Node, add_Node.
    set (hc := H ++ ext) in *.
    set (pnode := result_node _ (MulBack _ _ _) _ _).
    set (snode := result_node _ (AddBack _ _ _) _ _).
    destruct (IH (S i) (length (hc ++ [pnode])) (ext ++ [pnode; snode]))
      as (act'&ext'&E&Hact'&Hd&Hwf'); [lia| |].
    { unfold hc. rewrite !length_app. simpl. lia. }
    assert (H ++ ext ++ [pnode; snode] = (hc ++ [pnode]) ++ [snode]) as Heq.
    { unfold hc. by rewrite <- !(assoc_L (++)). }
    rewrite Heq in E, Hd, Hwf'.
    exists act', ext'. split; [done|]. split; [done|]. split.
    + rewrite Hd. rewrite lookup_total_new.
      rewrite (drop_S _ (data (H !!! wi)) i)
        by (by rewrite list_lookup_fmap, Hwi).
      rewrite (drop_S (map _ inputs) (data (H !!! xi)) i)
        by (by rewrite list_lookup_fmap, Hxi).
      simpl. f_equal. unfold snode, pnode, result_node. simpl.
      rewrite (lookup_total_old hc [_] act) by done.
      rewrite lookup_total_new. simpl. unfold hc.
      rewrite (lookup_total_app_l H ext wi) by done.
      by rewrite (lookup_total_app_l H ext xi) by done.
    + intros Hwf. apply Hwf'.
      apply wf_snoc; [apply wf_snoc; [done|]|].
      * apply node_ok_binary; unfold hc; rewrite ?length_app; (lia || done).
      * apply node_ok_binary; rewrite ?length_app; simpl; (lia || done).
Qed.

(** X15: what a neuron computes.  Given an input of the right length
    over objects of the store, [forward] returns a new object whose data
    is the hyperbolic tangent, as [tanh] computes it, of the bias plus
    each weight times its input, added from left to right; the objects it
    found are untouched and the store stays well formed. *)
Theorem Neuron_forward_value n (xs : list operand) h :
  length xs = NN.nin n -> length (NN.w n) = NN.nin n ->
  Forall (fun r => r < length h) (NN.w n) -> NN.b n < length h ->
  Forall (operand_ok h) xs ->
  exists out ext,
    NN.Neuron_forward js n (NN.Arr xs) h = Return out (h ++ ext) /\
    out < length (h ++ ext) /\
    data ((h ++ ext) !!! out) =
      tanh_value js
        (weighted_sum (map (fun r => data (h !!! r)) (NN.w n))
                      (map (operand_data h) xs)
                      (data (h !!! NN.b n))) /\
    (wf h -> wf (h ++ ext)).
Proof.
  intros Hx Hw Hwr Hb Hok. unfold NN.Neuron_forward.
  rewrite Hx, Nat.eqb_refl, bind_eq.
  destruct (map_promote_grows xs h Hok) as (inputs&ext1&E1&Hlen&Hleaf&Hin&Hdata).
  rewrite E1, bind_eq. set (H := h ++ ext1) in *.
  destruct (weighted_loop (NN.w n) inputs H) with
    (k := NN.nin n) (i := 0) (act := NN.b n) (ext := @nil Value)
    as (act&ext2&E2&Hact&Hd&Hwf2).
  { eapply Forall_impl; [exact Hwr|]. intros r Hr. unfold H.
    rewrite length_app. simpl in Hr. lia. }
  { done. }
  { lia. }
  { lia. }
  { rewrite app_nil_r. unfold H. rewrite length_app. lia. }
  rewrite app_nil_r in E2, Hd, Hwf2. rewrite E2, tanh_eq. simpl.
  set (tnode := result_node _ _ _ _).
  exists (length (H ++ ext2)), (ext1 ++ ext2 ++ [tnode]).
  assert (h ++ ext1 ++ ext2 ++ [tnode] = (H ++ ext2) ++ [tnode]) as Heq.
  { unfold H. by rewrite <- !(assoc_L (++)). }
  rewrite Heq. split; [done|].
  split; [rewrite (length_app _ [tnode]); simpl; lia|]. split.
  - rewrite lookup_total_new. unfold tnode, result_node, tanh_value. simpl.
    rewrite Hd, !drop_0, Hdata. unfold H.
    rewrite (lookup_total_app_l h ext1 (NN.b n)) by done.
    replace (map (fun r => data ((h ++ ext1) !!! r)) (NN.w n))
      with (map (fun r => data (h !!! r)) (NN.w n)); [done|].
    apply Forall_fmap_ext_1. eapply Forall_impl; [exact Hwr|].
    intros r Hr. simpl in *. by rewrite lookup_total_app_l.
  - intros Hwf. apply wf_snoc.
    + apply Hwf2. unfold H. by apply wf_app_leaves.
    + by apply node_ok_unary.
Qed.

Lemma promote_grows (o : operand) h :
  operand_ok h o ->
  exists r ext,
    promote o h = Return r (h ++ ext) /\ r < length (h ++ ext) /\
    data ((h ++ ext) !!! r) = operand_data h o /\ Forall is_leaf ext.
Proof.
  destruct o as [r|x]; simpl; intros Hr.
  - exists r, []. rewrite app_nil_r. by repeat split.
  - eexists (length h), [_]. split; [reflexivity|].
    split; [rewrite length_app; simpl; lia|].
    split; [by rewrite lookup_total_new|]. by repeat constructor.
Qed.

Lemma squared_term p t total h :
  p < length h -> t < length h -> total < length h ->
  exists out ext,
    (diff <- sub p (Node t) ;;
     sq <- pow js diff (JNumber 2%float) ;;
     add total (Node sq)) h = Return out (h ++ ext) /\
    out < length (h ++ ext) /\
    data ((h ++ ext) !!! out) =
      (data (h !!! total) +
       Math_pow js (data (h !!! p) + data (h !!! t) * -1) 2)%float /\
    (wf h -> wf (h ++ ext)).
Proof.
  intros Hp Ht Htot. unfold sub, neg.
  rewrite !bind_eq, mul_Num, mul_Node.
  set (h1 := h ++ [result_node (-1)%float Noop [] EmptyString]).
  set (nnode := result_node _ (MulBack _ _ _) _ _).
  rewrite add_Node. set (dnode := result_node _ (AddBack _ _ _) _ _).
  rewrite bind_eq, pow_JNumber. set (qnode := result_node _ (PowBack _ _ _) _ _).
  rewrite add_Node. set (snode := result_node _ (AddBack _ _ _) _ _).
  assert (length h1 = S (length h)) as L1
    by (unfold h1; rewrite length_app; simpl; lia).
  exists (length (((h1 ++ [nnode]) ++ [dnode]) ++ [qnode])),
    [result_node (-1)%float Noop [] EmptyString; nnode; dnode; qnode; snode].
  assert (h ++ [result_node (-1)%float Noop [] EmptyString; nnode; dnode;
                qnode; snode]
          = (((h1 ++ [nnode]) ++ [dnode]) ++ [qnode]) ++ [snode]) as ->.
  { unfold h1. by rewrite <- !(assoc_L (++)). }
  split; [done|].
  split; [rewrite (length_app _ [snode]); simpl; lia|]. split.
  - rewrite lookup_total_new. unfold snode, result_node. simpl.
    rewrite lookup_total_new.
    rewrite 3!lookup_total_old by (rewrite ?length_app; simpl; lia).
    unfold h1 at 1. rewrite lookup_total_old by done. f_equal.
    unfold qnode, result_node. simpl. rewrite lookup_total_new.
    f_equal. unfold dnode, result_node. simpl. rewrite lookup_total_new.
    rewrite lookup_total_old by lia.
    unfold h1 at 1. rewrite lookup_total_old by done. f_equal.
    unfold nnode, result_node. simpl. unfold h1.
    rewrite lookup_total_new. by rewrite lookup_total_old by done.
  - intros Hwf.
    repeat (apply wf_snoc;
      [|first [apply node_ok_binary | apply node_ok_unary];
        rewrite ?length_app; simpl; (lia || done)]).
    unfold h1. apply wf_snoc; [done|]. apply node_ok_leaf.
Qed.

Lemma squared_loop (ps ts : list operand) (H : list Value) :
  Forall (operand_ok H) ps -> Forall (operand_ok H) ts ->
  length ps = length ts ->
  forall k i total (ext : list Value),
  i + k = length ps -> total < length (H ++ ext) ->
  exists total' ext',
    for_upto k i
      (fun i totalLoss =>
         pred <- promote (ps !!! i) ;;
         target <- promote (ts !!! i) ;;
         diff <- sub pred (Node target) ;;
         sq <- pow js diff (JNumber 2%float) ;;
         add totalLoss (Node sq))
      total (H ++ ext) = Return total' (H ++ ext') /\
    total' < length (H ++ ext') /\
    data ((H ++ ext') !!! total') =
      squared_error js (drop i (map (operand_data H) ps))
                       (drop i (map (operand_data H) ts))
                       (data ((H ++ ext) !!! total)) /\
    (wf (H ++ ext) -> wf (H ++ ext')).
Proof.
  intros Hps Hts Hlen. induction k as [|k IH]; intros i total ext Hik Htot.
  - exists total, ext. split; [done|]. split; [done|]. split; [|done].
    rewrite !drop_ge by (rewrite length_map; lia). done.
  - assert (i < length ps) as Hi by lia.
    destruct (lookup_lt_is_Some_2 ps i Hi) as [po Hpo].
    destruct (lookup_lt_is_Some_2 ts i) as [to Hto]; [lia|].
    assert (operand_ok H po) as Hpok
      by (rewrite Forall_lookup in Hps; by eapply Hps).
    assert (operand_ok H to) as Htok
      by (rewrite Forall_lookup in Hts; by eapply Hts).
    rewrite for_upto_S, bind_eq.
    rewrite (list_lookup_total_correct ps i po Hpo).
    rewrite (list_lookup_total_correct ts i to Hto).
    destruct (operand_ok_grow H ext po Hpok) as [Hpok' Hpd].
    destruct (promote_grows po (H ++ ext) Hpok')
      as (p&l1&E1&Hp&Hpdata&Hl1).
    rewrite E1, bind_eq.
    destruct (operand_ok_grow H (ext ++ l1) to Htok) as [Htok' Htd].
    rewrite (assoc_L (++)) in Htok', Htd.
    destruct (promote_grows to ((H ++ ext) ++ l1) Htok')
      as (t&l2&E2&Ht&Htdata&Hl2).
    rewrite E2.
    set (h2 := ((H ++ ext) ++ l1) ++ l2) in *.
    destruct (squared_term p t total h2) as (out&l3&E3&Hout&Hdata&Hwf3).
    { unfold h2. rewrite (length_app _ l2). lia. }
    { done. }
    { unfold h2. rewrite !length_app in *. lia. }
    rewrite E3.
    destruct (IH (S i) out (ext ++ l1 ++ l2 ++ l3))
      as (total'&ext'&E&Htot'&Hd&Hwf'); [lia| |].
    { replace (H ++ ext ++ l1 ++ l2 ++ l3) with (h2 ++ l3); [done|].
      unfold h2. by rewrite <- !(assoc_L (++)). }
    replace (H ++ ext ++ l1 ++ l2 ++ l3) with (h2 ++ l3) in E, Hd, Hwf'
      by (unfold h2; by rewrite <- !(assoc_L (++))).
    exists total', ext'. split; [done|]. split; [done|]. split.
    + rewrite Hd, Hdata.
      rewrite (drop_S _ (operand_data H po) i)
        by (by rewrite list_lookup_fmap, Hpo).
      rewrite (drop_S (map _ ts) (operand_data H to) i)
        by (by rewrite list_lookup_fmap, Hto).
      simpl. f_equal. rewrite Htdata, Htd. unfold h2.
      rewrite (lookup_total_old _ l2 p) by done.
      rewrite Hpdata, Hpd.
      by rewrite 2!lookup_total_old by (rewrite ?length_app in *; lia).
    + intros Hwf. apply Hwf', Hwf3. unfold h2.
      apply wf_app_leaves; [|done]. by apply wf_app_leaves.
Qed.

(** X16: what [Loss.mse] computes.  For predictions and targets of the
    same length, each a number or an object of the store, [Loss.mse]
    returns a new object whose data is the sum, started at 0 and taken
    from left to right, of [Math.pow(p + t * -1, 2)] over the pairs; the
    store it found is a prefix of the one it leaves and stays well
    formed. *)
Theorem Loss_mse_value (ps ts : list operand) h :
  length ps = length ts ->
  Forall (operand_ok h) ps -> Forall (operand_ok h) ts ->
  exists out ext,
    NN.Loss_mse js ps ts h = Return out (h ++ ext) /\
    out < length (h ++ ext) /\
    data ((h ++ ext) !!! out) =
      squared_error js (map (operand_data h) ps) (map (operand_data h) ts)
        0%float /\
    (wf h -> wf (h ++ ext)).
Proof.
  intros Hlen Hps Hts. unfold NN.Loss_mse.
  rewrite Hlen, Nat.eqb_refl, bind_eq. unfold new_Value at 1.
  set (zero := {| data := 0%float; grad := 0%float; _backward := Noop;
                  _prev := JSSet.from []; _op := EmptyString;
                  label := EmptyString |}).
  destruct (squared_loop ps ts (h ++ [zero])) with
    (k := length ts) (i := 0) (total := length h) (ext := @nil Value)
    as (total&ext&E&Htot&Hd&Hwf').
  { eapply Forall_impl; [exact Hps|]. intros o Ho. by apply operand_ok_grow. }
  { eapply Forall_impl; [exact Hts|]. intros o Ho. by apply operand_ok_grow. }
  { done. }
  { lia. }
  { rewrite app_nil_r, length_app. simpl. lia. }
  rewrite app_nil_r in E, Hd, Hwf'. rewrite E.
  exists total, (zero :: ext).
  replace (h ++ zero :: ext) with ((h ++ [zero]) ++ ext)
    by (by rewrite <- (assoc_L (++))).
  split; [done|]. split; [done|]. split.
  - rewrite Hd, !drop_0, lookup_total_new. simpl data.
    f_equal; apply Forall_fmap_ext_1.
    + eapply Forall_impl; [exact Hps|]. intros o Ho.
      by apply operand_ok_grow.
    + eapply Forall_impl; [exact Hts|]. intros o Ho.
      by apply operand_ok_grow.
  - intros Hwf. apply Hwf', wf_snoc; [done|]. apply node_ok_leaf.
Qed.

Lemma Layer_new_loop (n_in k : nat) : forall i (ns : list NN.Neuron) h,
  exists ns' ext,
    for_upto k i
      (fun _ ns => n <- NN.Neuron_new js Math_random n_in ;; ret (ns ++ [n]))
      ns h = Return (ns ++ ns') (h ++ ext) /\
    length ns' = k /\
    concat (map NN.Neuron_parameters ns') = seq (length h) (length ext) /\
    length ext = k * S n_in /\ Forall is_leaf ext.
Proof.
  induction k as [|k IH]; intros i ns h.
  - exists [], []. simpl. rewrite !app_nil_r. by repeat split.
  - rewrite for_upto_S, bind_eq.
    destruct (Neuron_new_grows n_in h) as (ext1&E&Hlen1&Hleaf1).
    rewrite E. unfold ret at 1.
    set (n := {| NN.nin := n_in; NN.w := seq (length h) n_in;
                 NN.b := length h + n_in |}) in *.
    assert (NN.Neuron_parameters n = seq (length h) (S n_in)) as Hpar.
    { unfold NN.Neuron_parameters, n. rewrite seq_S. reflexivity. }
    destruct (IH (S i) (ns ++ [n]) (h ++ ext1))
      as (ns'&ext2&E2&Hlen&Hpars&Hlen2&Hleaf2).
    rewrite E2. exists (n :: ns'), (ext1 ++ ext2).
    rewrite <- !(assoc_L (++)). simpl.
    split; [done|]. split; [by rewrite Hlen|]. split.
    + rewrite Hpar, Hpars, !length_app, Hlen1. by rewrite <- seq_app.
    + rewrite length_app, Hlen1, Hlen2. split; [lia|].
      apply Forall_app. by split.
Qed.

Lemma Layer_new_grows (n_in n_out : nat) h :
  exists l ext,
    NN.Layer_new js Math_random n_in n_out h = Return l (h ++ ext) /\
    NN.layer_nin l = n_in /\ NN.nout l = n_out /\
    length (NN.neurons l) = n_out /\
    NN.Layer_parameters l = seq (length h) (length ext) /\
    length ext = n_out * S n_in /\ Forall is_leaf ext.
Proof.
  destruct (Layer_new_loop n_in n_out 0 [] h)
    as (ns&ext&E&Hlen&Hpars&Hlen'&Hleaf).
  unfold NN.Layer_new. rewrite bind_eq, E. unfold ret. simpl.
  eexists _, ext. split; [reflexivity|]. simpl.
  by repeat split.
Qed.

Lemma MLP_new_loop (sz : list nat) (k : nat) :
  forall i (ls : list NN.Layer) h,
  exists ls' ext,
    for_upto k i
      (fun i ls =>
         l <- NN.Layer_new js Math_random (sz !!! i) (sz !!! (S i)) ;;
         ret (ls ++ [l]))
      ls h = Return (ls ++ ls') (h ++ ext) /\
    map (fun l => length (NN.neurons l)) ls' =
      map (fun j => sz !!! (S j)) (seq i k) /\
    concat (map NN.Layer_parameters ls') = seq (length h) (length ext) /\
    length ext =
      sum_list (map (fun j => sz !!! (S j) * S (sz !!! j)) (seq i k)) /\
    Forall is_leaf ext.
Proof.
  induction k as [|k IH]; intros i ls h.
  - exists [], []. simpl. rewrite !app_nil_r. by repeat split.
  - rewrite for_upto_S, bind_eq.
    destruct (Layer_new_grows (sz !!! i) (sz !!! (S i)) h)
      as (l&ext1&E&_&_&Hn&Hpar&Hlen1&Hleaf1).
    rewrite E. unfold ret at 1.
    destruct (IH (S i) (ls ++ [l]) (h ++ ext1))
      as (ls'&ext2&E2&Hns&Hpars&Hlen2&Hleaf2).
    rewrite E2. exists (l :: ls'), (ext1 ++ ext2).
    rewrite <- !(assoc_L (++)). simpl.
    split; [done|]. split; [by rewrite Hn, Hns|]. split.
    + rewrite Hpar, Hpars, !length_app. by rewrite <- seq_app.
    + rewrite length_app, Hlen1, Hlen2. split; [done|].
      apply Forall_app. by split.
Qed.

Lemma parameter_count_seq (sz : list nat) : forall i,
  sum_list (map (fun j => sz !!! (S j) * S (sz !!! j))
              (seq i (length sz - S i)))
  = parameter_count (drop i sz).
Proof.
  intros i. remember (length sz - S i) as k eqn:Hk.
  revert i Hk. induction k as [|k IH]; intros i Hk.
  - simpl. destruct (drop i sz) as [|a [|b rest]] eqn:E; [done|done|].
    apply (f_equal length) in E. rewrite length_drop in E. simpl in E. lia.
  - simpl. rewrite (IH (S i)) by lia.
    assert (i < length sz) as Hi by lia.
    assert (S i < length sz) as HSi by lia.
    destruct (lookup_lt_is_Some_2 sz i Hi) as [a Ha].
    destruct (lookup_lt_is_Some_2 sz (S i) HSi) as [b Hb].
    rewrite (drop_S sz a i Ha), (drop_S sz b (S i) Hb).
    rewrite (list_lookup_total_correct sz i a Ha).
    rewrite (list_lookup_total_correct sz (S i) b Hb).
    simpl. lia.
Qed.

(** X17: [new MLP(nin, nouts)] builds one layer for each entry of
    [nouts], the [i]-th with [nouts[i]] neurons, out of fresh leaves only.
    Its parameters are exactly the objects it allocated, in allocation
    order and each once, and there are
    [(nin + 1) * nouts[0] + (nouts[0] + 1) * nouts[1] + ...] of them.
    A well-formed store stays well formed. *)
Theorem MLP_new_parameters (n_in : nat) (n_outs : list nat) h :
  exists m ext,
    NN.MLP_new js Math_random n_in n_outs h = Return m (h ++ ext) /\
    NN.mlp_nin m = n_in /\ NN.nouts m = n_outs /\
    map (fun l => length (NN.neurons l)) (NN.layers m) = n_outs /\
    NN.MLP_parameters m = seq (length h) (length ext) /\
    NoDup (NN.MLP_parameters m) /\
    length ext = parameter_count (n_in :: n_outs) /\
    Forall is_leaf ext /\
    (wf h -> wf (h ++ ext)).
Proof.
  destruct (MLP_new_loop (n_in :: n_outs) (length n_outs) 0 [] h)
    as (ls&ext&E&Hns&Hpars&Hlen&Hleaf).
  unfold NN.MLP_new. cbv zeta. rewrite bind_eq, E. unfold ret. simpl.
  eexists _, ext. split; [reflexivity|]. simpl.
  split; [done|]. split; [done|]. split.
  { rewrite Hns. apply list_eq. intros j.
    rewrite list_lookup_fmap.
    destruct (decide (j < length n_outs)) as [Hj|Hj].
    - rewrite lookup_seq_lt by done. simpl.
      destruct (lookup_lt_is_Some_2 n_outs j Hj) as [b Hb].
      rewrite Hb. f_equal. by apply list_lookup_total_correct.
    - rewrite lookup_seq_ge by lia. simpl.
      symmetry. apply lookup_ge_None. lia. }
  unfold NN.MLP_parameters. simpl. rewrite Hpars.
  split; [done|]. split; [apply NoDup_seq|]. split.
  { rewrite Hlen.
    pose proof (parameter_count_seq (n_in :: n_outs) 0) as Hc.
    simpl length in Hc. rewrite Nat.sub_succ, Nat.sub_0_r in Hc.
    by rewrite drop_0 in Hc. }
  split; [done|]. intros Hwf. by apply wf_app_leaves.
Qed.

End Perceptron.

(** * The derived operations *)

Section DerivedOperations.
Variable js : Builtins.
Implicit Types (h : list Value) (this : nat).

Ltac look_up :=
  unfold result_node; simpl;
  repeat first
    [ rewrite lookup_total_new
    | rewrite lookup_total_old by (rewrite ?length_app; simpl; lia) ];
  simpl.

(** X18: what the derived operations compute.  [neg] multiplies by a new
    leaf that holds -1, [sub] adds the negation of its operand, and [div]
    multiplies by [Math.pow(other.data, -1)]: in binary64,
    [a.neg().data = a.data * -1], [a.sub(b).data = a.data + b.data * -1]
    and [a.div(b).data = a.data * Math.pow(b.data, -1)], for [b] an object
    of the store or a raw number. *)
Theorem derived_operations_values this (other : operand) h :
  this < length h -> operand_ok h other ->
  (exists out h',
     neg this h = Return out h' /\
     data (h' !!! out) = (data (h !!! this) * -1)%float) /\
  (exists out h',
     sub this other h = Return out h' /\
     data (h' !!! out) =
       (data (h !!! this) + operand_data h other * -1)%float) /\
  (exists out h',
     div js this other h = Return out h' /\
     data (h' !!! out) =
       (data (h !!! this) * Math_pow js (operand_data h other) (-1))%float).
Proof.
  intros Hthis Hother. split; [|split].
  - unfold neg. rewrite mul_Num, mul_Node.
    eexists _, _. split; [reflexivity|]. by look_up.
  - unfold sub, neg. destruct other as [r|x]; simpl in Hother.
    + rewrite bind_eq, mul_Num, mul_Node, add_Node.
      eexists _, _. split; [reflexivity|]. by look_up.
    + rewrite !bind_eq. unfold new_Value at 1.
      rewrite mul_Num, mul_Node, add_Node.
      eexists _, _. split; [reflexivity|]. by look_up.
  - unfold div. destruct other as [r|x]; simpl in Hother.
    + rewrite bind_eq, pow_JNumber, mul_Node.
      eexists _, _. split; [reflexivity|]. by look_up.
    + rewrite !bind_eq. unfold new_Value at 1.
      rewrite pow_JNumber, mul_Node.
      eexists _, _. split; [reflexivity|]. by look_up.
Qed.

End DerivedOperations.

(** * The further properties on concrete stores *)

Lemma backward_chain_rule_witness :
  exists order hf,
    backward js0 7 6 complex_store = Return tt hf /\
    hd_error order = Some 6 /\ NoDup order /\
    consumers_first complex_store order /\
    grad (hf !!! 6) = 1%float.
Proof.
  destruct (backward_chain_rule js0 complex_store 7 6)
    as (order&hf&H1&H2&H3&_&H4&H5&_); [by_computation|vm_compute; lia|lia|].
  exists order, hf. split; [exact H1|]. split; [exact H2|].
  split; [exact H3|]. split; [exact H4|exact H5].
Defined.

Lemma backward_frame_witness :
  exists hf,
    backward js0 7 6 complex_store = Return tt hf /\
    length hf = length complex_store.
Proof.
  destruct (backward_frame js0 complex_store 7 6)
    as (hf&H1&H2&_); [by_computation|vm_compute; lia|lia|].
  exists hf. split; [exact H1|exact H2].
Defined.

Lemma backward_leaf_witness :
  backward js0 1 0 leaves_store = Return tt (set_grad 0 1%float leaves_store).
Proof.
  apply (backward_leaf js0 leaves_store 1 0); [by_computation|reflexivity|lia].
Defined.

Lemma getNodes_backward_same_nodes_witness :
  exists nodes edges visited topo,
    build 7 complex_store 6 ([], []) = Some (nodes, edges) /\
    buildTopo 7 complex_store 6 ([], []) = Some (visited, topo) /\
    nodes ≡ₚ topo.
Proof.
  destruct (getNodes_backward_same_nodes complex_store 7 6)
    as (N&E&V&T&H1&H2&H3&_); [by_computation|lia|].
  exists N, E, V, T. split; [exact H1|]. split; [exact H2|exact H3].
Defined.

Lemma unary_backward_rules_witness :
  exists out h' hf,
    exp js0 0 leaves_store = Return out h' /\
    backward js0 3 out h' = Return tt hf /\
    grad (hf !!! 0) = (0 + data (h' !!! out))%float.
Proof.
  destruct (unary_backward_rules js0 leaves_store 0 2%float 3)
    as (_&_&_&H); [by_computation|vm_compute; lia|reflexivity|vm_compute; lia|].
  exact H.
Defined.

Lemma mul_backward_distinct_witness :
  exists out h' hf,
    mul 0 (Node 1) leaves_store = Return out h' /\
    backward js0 3 out h' = Return tt hf /\
    grad (hf !!! 0) = (0 + 2)%float /\ grad (hf !!! 1) = (0 + 1)%float.
Proof.
  destruct (mul_backward_distinct js0 leaves_store 0 1 3)
    as (out&h'&hf&H1&_&H2&H3&H4).
  - by_computation.
  - vm_compute; lia.
  - vm_compute; lia.
  - lia.
  - reflexivity.
  - reflexivity.
  - intros H. apply (reachable_le leaves_store 0 1) in H; [lia|by_computation].
  - intros H. apply reachable_inv in H as [H|(c&Hc&_)]; [lia|].
    revert Hc. by_computation.
  - vm_compute; lia.
  - exists out, h', hf. split; [exact H1|]. split; [exact H2|].
    split; [exact H3|exact H4].
Defined.

Lemma operations_keep_wf_witness :
  keeps_wf (sub 0 (Node 1) leaves_store) /\
  keeps_wf (div js0 0 (Num 4%float) leaves_store).
Proof.
  split.
  - destruct (operations_keep_wf js0 0 (Node 1) 2%float leaves_store)
      as (_&_&_&_&_&_&_&H&_); [by_computation|vm_compute; lia|vm_compute; lia|].
    exact H.
  - destruct (operations_keep_wf js0 0 (Num 4%float) 2%float leaves_store)
      as (_&_&_&_&_&_&_&_&H); [by_computation|vm_compute; lia|exact I|].
    exact H.
Defined.

Lemma Neuron_forward_rejects_witness :
  exists msg,
    NN.Neuron_forward js0 two_input_neuron (NN.Arr [Num 1%float]) neuron_store
    = Throw (Error msg) neuron_store.
Proof.
  apply (Neuron_forward_rejects js0 two_input_neuron (NN.Arr [Num 1%float])).
  vm_compute. lia.
Defined.

Lemma MLP_forward_one_neuron_layer_witness :
  exists e h',
    NN.MLP_forward js0 narrow_mlp (NN.Arr [Num 1%float]) narrow_store
    = Throw e h'.
Proof.
  eapply (MLP_forward_one_neuron_layer js0 narrow_mlp [] []).
  - vm_compute. reflexivity.
  - reflexivity.
  - discriminate.
Defined.

Lemma MLP_updateParameters_step_witness :
  exists h',
    NN.updateParameters narrow_mlp None narrow_store = Return tt h' /\
    length h' = length narrow_store.
Proof.
  destruct (MLP_updateParameters_step narrow_mlp None narrow_store)
    as (h'&H1&H2&_); [by_computation|].
  exists h'. split; [exact H1|exact H2].
Defined.

Lemma Neuron_forward_value_witness :
  exists out ext,
    NN.Neuron_forward js0 two_input_neuron
      (NN.Arr [Num 1%float; Node 2]) neuron_store
    = Return out (neuron_store ++ ext) /\
    data ((neuron_store ++ ext) !!! out) =
      tanh_value js0 (0.5 + 0.5 * 1 + 0.5 * 0.5)%float.
Proof.
  destruct (Neuron_forward_value js0 two_input_neuron
              [Num 1%float; Node 2] neuron_store)
    as (out&ext&H1&_&H2&_).
  - reflexivity.
  - reflexivity.
  - by_computation.
  - vm_compute; lia.
  - apply Forall_cons_2; [exact I|].
    apply Forall_cons_2; [vm_compute; lia|]. apply Forall_nil_2.
  - exists out, ext. split; [exact H1|exact H2].
Defined.

Lemma Loss_mse_value_witness :
  exists out ext,
    NN.Loss_mse js0 [Num 1%float; Node 0] [Num 3%float; Node 1] leaves_store
    = Return out (leaves_store ++ ext) /\
    out < length (leaves_store ++ ext).
Proof.
  destruct (Loss_mse_value js0 [Num 1%float; Node 0] [Num 3%float; Node 1]
              leaves_store)
    as (out&ext&H1&H2&_).
  - reflexivity.
  - apply Forall_cons_2; [exact I|].
    apply Forall_cons_2; [vm_compute; lia|]. apply Forall_nil_2.
  - apply Forall_cons_2; [exact I|].
    apply Forall_cons_2; [vm_compute; lia|]. apply Forall_nil_2.
  - exists out, ext. split; [exact H1|exact H2].
Defined.

Lemma derived_operations_values_witness :
  exists out h',
    sub 0 (Node 1) leaves_store = Return out h' /\
    data (h' !!! out) = (1 + 2 * -1)%float.
Proof.
  destruct (derived_operations_values js0 0 (Node 1) leaves_store)
    as (_&H&_); [vm_compute; lia|vm_compute; lia|].
  exact H.
Defined.
